(** * Zarf: the per-request execution context, the route matcher and the dispatcher

    A shallow embedding of [src/core/context.ts] (class [AppContext]) together
    with the routing and dispatching core that the specification describes
    around it.  JavaScript strings are modelled by [string], header bags and
    plain objects used as dictionaries by [gmap string _], optional values
    ([undefined], [null], a missing property) by [option], thrown values by an
    explicit completion type. *)

From Stdlib Require Import ZArith Ascii String List Bool Lia.
From stdpp Require Import base option list strings gmap.

Local Open Scope Z_scope.
Set Warnings "-register-all".

(** ** JavaScript string primitives used by the code *)

Module JS.

(** [String.prototype.toLowerCase] on the ASCII range (HTTP method tokens are
    ASCII). *)
Definition lower_char (c : ascii) : ascii :=
  let n := nat_of_ascii c in
  if (Nat.leb 65 n && Nat.leb n 90)%bool then ascii_of_nat (n + 32) else c.

Fixpoint toLowerCase (s : string) : string :=
  match s with
  | EmptyString => EmptyString
  | String c s' => String (lower_char c) (toLowerCase s')
  end.

(** [s.endsWith(t)]: some suffix of [s] is [t]. *)
Fixpoint endsWith (s t : string) : bool :=
  if String.eqb s t then true
  else match s with
       | EmptyString => false
       | String _ s' => endsWith s' t
       end.

(** [s.includes(t)]: [t] is a prefix of some suffix of [s]. *)
Fixpoint includes (s t : string) : bool :=
  if String.prefix t s then true
  else match s with
       | EmptyString => false
       | String _ s' => includes s' t
       end.

(** [s.substring(a, b)]: both indices are clamped to [0 .. s.length] and
    swapped when [a > b]. *)
Definition clamp (len i : Z) : Z := Z.max 0 (Z.min i len).

Definition substring (s : string) (a b : Z) : string :=
  let len := Z.of_nat (String.length s) in
  let a' := clamp len a in
  let b' := clamp len b in
  let lo := Z.min a' b' in
  let hi := Z.max a' b' in
  String.substring (Z.to_nat lo) (Z.to_nat (hi - lo)) s.

(** [s.split(c)] for a one-character separator: never the empty array. *)
Fixpoint split (c : ascii) (s : string) : list string :=
  match s with
  | EmptyString => [EmptyString]
  | String a s' =>
      if Ascii.eqb a c then EmptyString :: split c s'
      else match split c s' with
           | [] => [String a EmptyString]
           | w :: ws => String a w :: ws
           end
  end.

(** [arr.join(sep)]. *)
Fixpoint join (sep : string) (l : list string) : string :=
  match l with
  | [] => EmptyString
  | [x] => x
  | x :: l' => x +:+ sep +:+ join sep l'
  end.

(** [[...new Set(arr)]]: the elements of [arr] in first-insertion order. *)
Definition Set_add (acc : list string) (x : string) : list string :=
  if decide (x ∈ acc) then acc else acc ++ [x].

Definition Set_of (l : list string) : list string := fold_left Set_add l [].

(** A string holds no occurrence of the character [c]. *)
Fixpoint free_of (c : ascii) (s : string) : bool :=
  match s with
  | EmptyString => true
  | String a s' => negb (Ascii.eqb a c) && free_of c s'
  end.

End JS.

(** ** Values exchanged with the platform *)

(** [JSONValue] of [./types]: numbers are carried as integers, the code only
    looks at their truthiness. *)
Inductive JSONValue : Type :=
| JNull
| JBool (b : bool)
| JNum (n : Z)
| JStr (s : string)
| JArr (items : list JSONValue)
| JObj (fields : list (string * JSONValue)).

(** JavaScript truthiness, as tested by [||]. *)
Definition truthy (v : JSONValue) : bool :=
  match v with
  | JNull => false
  | JBool b => b
  | JNum n => negb (n =? 0)
  | JStr s => negb (String.eqb s "")
  | JArr _ => true
  | JObj _ => true
  end.

(** A [Headers] bag: names are case-insensitive and kept in lower case; a
    value is stored without its leading and trailing HTTP whitespace (tab,
    line feed, carriage return, space).  The platform refuses ill-formed names
    and values; the model covers the calls it accepts. *)
Abbreviation Headers := (gmap string string).

Definition is_http_whitespace (c : ascii) : bool :=
  match c with
  | "009" | "010" | "013" | " " => true
  | _ => false
  end%char.

Fixpoint strip_leading (s : string) : string :=
  match s with
  | EmptyString => EmptyString
  | String c s' => if is_http_whitespace c then strip_leading s' else s
  end.

Fixpoint strip_trailing (s : string) : string :=
  match s with
  | EmptyString => EmptyString
  | String c s' =>
      match strip_trailing s' with
      | EmptyString => if is_http_whitespace c then EmptyString else String c EmptyString
      | t => String c t
      end
  end.

Definition normalize_value (v : string) : string :=
  strip_trailing (strip_leading v).

Definition Headers_set (h : Headers) (name value : string) : Headers :=
  <[JS.toLowerCase name := normalize_value value]> h.

Definition Headers_get (h : Headers) (name : string) : option string :=
  h !! JS.toLowerCase name.

Record Response : Type := mkResponse {
  resp_status : Z;
  resp_statusText : string;
  resp_headers : Headers;
  resp_body : option JSONValue
}.

(** [ResponseInit]: every property is optional. *)
Record ResponseInit : Type := mkResponseInit {
  init_headers : option (gmap string string);
  init_status : option Z;
  init_statusText : option string
}.

Definition init_empty : ResponseInit := mkResponseInit None None None.

(** Object spread [{...a, ...b}]: a property present in [b] wins. *)
Definition or_else {A : Type} (x y : option A) : option A :=
  match x with
  | Some _ => x
  | None => y
  end.

Definition spread (a b : ResponseInit) : ResponseInit :=
  mkResponseInit (or_else (init_headers b) (init_headers a))
                 (or_else (init_status b) (init_status a))
                 (or_else (init_statusText b) (init_statusText a)).

Record URL : Type := mkURL {
  url_href : string;
  url_host : string;
  url_pathname : string
}.

Record Request : Type := mkRequest {
  req_method : string;
  req_url : string;
  req_headers : Headers
}.

(** The two options of [ZarfConfig] that the context reads. *)
Record ZarfConfig : Type := mkConfig {
  strictRouting : option bool;
  serverHeader : option string
}.

Definition truthy_flag (o : option bool) : bool :=
  match o with
  | Some b => b
  | None => false
  end.

Definition truthy_string (o : option string) : bool :=
  match o with
  | Some s => negb (String.eqb s "")
  | None => false
  end.

(** The collaborators that [context.ts] imports or takes from the runtime. *)
Class Runtime : Type := {
  MiddlewareFunction : Type;
  Locals : Type;
  ErrorValue : Type;
  ParsedBody : Type;
  locals_empty : Locals;
  (** [new URL(href)] *)
  URL_new : string -> URL;
  (** [new URLSearchParams(href).get(name)] *)
  URLSearchParams_get : string -> string -> option string;
  (** [new Response('')] *)
  Response_new : Response;
  (** [getContentType] of [./utils/mime] *)
  getContentType : string -> option string;
  (** the table [HTTP_STATUS_CODES] of [./constants/codes] *)
  HTTP_STATUS_CODES : Z -> string;
  (** the helpers of [./response] *)
  response_json : JSONValue -> ResponseInit -> Response;
  response_text : string -> ResponseInit -> Response;
  response_html : string -> ResponseInit -> Response;
  response_head : ResponseInit -> Response;
  response_send : JSONValue -> ResponseInit -> Response;
  (** [Response.redirect] and [encodeURI] *)
  Response_redirect : string -> Z -> Response;
  encodeURI : string -> string
}.

(** ** Completions: a call returns a value or throws *)

(** [ZarfHaltError] of [./errors/error], the value thrown by [halt]: its
    fields are the three arguments [halt] constructs it from. *)
Record ZarfHaltError : Type := mkHalt {
  halt_statusCode : Z;
  halt_body : JSONValue;
  halt_init : ResponseInit
}.

Inductive Thrown (E : Type) : Type :=
| ThrownHalt (h : ZarfHaltError)
| ThrownError (e : E).

Inductive Completion (E A : Type) : Type :=
| Normal (a : A)
| Throw (t : Thrown E).

Arguments ThrownHalt {E} h.
Arguments ThrownError {E} e.
Arguments Normal {E A} a.
Arguments Throw {E A} t.

(** ** The Pattern Compiler and the structural match (specification, 3 and 4) *)

Module Pattern.

(** Modelled from the spec: the Segment of the data model; the pattern
    compiler and the matcher are in the router module, which the sources do
    not include.  One atomic unit of a compiled path pattern, of kind static,
    param, optional-param or wildcard. *)
Inductive Segment : Type :=
| Static (literal : string)
| Param (name : string)
| OptionalParam (name : string)
| Wildcard (name : string).

(** Modelled from the spec: the parameter name a segment produces, none for a
    static segment (the router module is not among the sources). *)
Definition seg_name (s : Segment) : option string :=
  match s with
  | Static _ => None
  | Param n => Some n
  | OptionalParam n => Some n
  | Wildcard n => Some n
  end.

(** Modelled from the spec: the segments of a path or pattern, its
    slash-delimited units (Glossary); the empty unit before the leading slash
    is not one of them.  The router module is not among the sources. *)
Definition segments_of (p : string) : list string :=
  match JS.split "/" p with
  | EmptyString :: units => units
  | units => units
  end.

(** Modelled from the spec: the name of an optional segment [:name?], the
    text before the final [?] (4.1; the router module is not among the
    sources).  [strip_last c s] is [s] without its last character when that
    one is [c]. *)
Fixpoint strip_last (c : ascii) (s : string) : option string :=
  match s with
  | EmptyString => None
  | String a EmptyString => if Ascii.eqb a c then Some EmptyString else None
  | String a s' => String a <$> strip_last c s'
  end.

(** Modelled from the spec: the surface syntax of the Pattern Compiler (4.1),
    [:name] for a required named segment, [:name?] for an optional one and
    [*name] for a wildcard capture; anything else is a literal. *)
Definition compile_unit (u : string) : Segment :=
  match u with
  | String ":" rest =>
      match strip_last "?" rest with
      | Some n => OptionalParam n
      | None => Param rest
      end
  | String "*" rest => Wildcard rest
  | _ => Static u
  end.

(** Modelled from the spec: how many segments of a pattern produce the
    parameter name [n] (4.1; the router module is not among the sources). *)
Definition name_count (n : string) (segs : list Segment) : nat :=
  length (filter (fun s => seg_name s = Some n) segs).

(** Modelled from the spec: the first registration-time failure of 4.1, a
    wildcard or optional segment name that collides with another parameter
    name of the pattern. *)
Definition names_distinct (segs : list Segment) : bool :=
  forallb (fun s =>
             match s with
             | Wildcard n | OptionalParam n => Nat.eqb (name_count n segs) 1
             | _ => true
             end) segs.

(** Modelled from the spec: the second registration-time failure of 4.1, an
    optional segment that is not the last segment. *)
Fixpoint optional_last (segs : list Segment) : bool :=
  match segs with
  | [] => true
  | [_] => true
  | OptionalParam _ :: _ => false
  | _ :: segs' => optional_last segs'
  end.

(** Modelled from the spec: the Pattern Compiler (4.1), from a path string to
    the ordered segment list; [None] is the configuration error. *)
Definition compile (p : string) : option (list Segment) :=
  let segs := compile_unit <$> segments_of p in
  if names_distinct segs && optional_last segs then Some segs else None.

(** Modelled from the spec: the parameter-name set of a compiled pattern. *)
Definition param_names (segs : list Segment) : gset string :=
  list_to_set (omap seg_name segs).

(** Modelled from the spec: a wildcard consumes one or more request segments,
    the minimal run that lets the remainder of the pattern still match (4.2);
    [run] is the run consumed so far, [k] matches the remainder of the
    pattern. *)
Fixpoint wildcard_run (k : list string -> option (gmap string string))
    (n : string) (run rest : list string) : option (gmap string string) :=
  match k rest with
  | Some m => Some (<[n := JS.join "/" run]> m)
  | None =>
      match rest with
      | [] => None
      | s :: rest' => wildcard_run k n (run ++ [s]) rest'
      end
  end.

(** Modelled from the spec: the segment-by-segment structural match of the
    Matcher (4.2).  A static segment requires equality, a param segment binds
    exactly one request segment, an optional-param segment binds the segment
    when there is one and is left absent on an exhausted path, a wildcard binds
    the [/]-joined run it consumes. *)
Fixpoint match_segments (pat : list Segment) (segs : list string)
  : option (gmap string string) :=
  match pat with
  | [] =>
      match segs with
      | [] => Some ∅
      | _ :: _ => None
      end
  | Static lit :: pat' =>
      match segs with
      | s :: segs' => if String.eqb s lit then match_segments pat' segs' else None
      | [] => None
      end
  | Param n :: pat' =>
      match segs with
      | s :: segs' => insert n s <$> match_segments pat' segs'
      | [] => None
      end
  | OptionalParam n :: pat' =>
      match segs with
      | s :: segs' => insert n s <$> match_segments pat' segs'
      | [] => match_segments pat' []
      end
  | Wildcard n :: pat' =>
      match segs with
      | s :: segs' => wildcard_run (match_segments pat') n [s] segs'
      | [] => None
      end
  end.

End Pattern.

(** A concrete runtime, used to run the model on examples. *)
Module Demo.

Definition pathname_of (href : string) : string :=
  match JS.split "/" href with
  | _ :: _ :: _ :: units => "/" +:+ JS.join "/" units
  | _ => "/"
  end.

Definition host_of (href : string) : string :=
  match JS.split "/" href with
  | _ :: _ :: h :: _ => h
  | _ => ""
  end.

Definition status_text (code : Z) : string :=
  if code =? 200 then "OK"
  else if code =? 401 then "Unauthorized"
  else if code =? 404 then "Not Found"
  else "Internal Server Error".

Definition respond (b : option JSONValue) (init : ResponseInit) : Response :=
  {| resp_status := default 200 (init_status init);
     resp_statusText := default "" (init_statusText init);
     resp_headers := default ∅ (init_headers init);
     resp_body := b |}.

Definition runtime : Runtime :=
  {| MiddlewareFunction := string;
     Locals := gmap string JSONValue;
     ErrorValue := string;
     ParsedBody := JSONValue;
     locals_empty := ∅;
     URL_new := fun href => mkURL href (host_of href) (pathname_of href);
     URLSearchParams_get := fun _ _ => None;
     Response_new :=
       mkResponse 200 "" {[ "content-type" := "text/plain;charset=UTF-8" ]}
                  (Some (JStr ""));
     getContentType := fun t => if String.eqb t "json" then Some "application/json" else None;
     HTTP_STATUS_CODES := status_text;
     response_json := fun b => respond (Some b);
     response_text := fun t => respond (Some (JStr t));
     response_html := fun t => respond (Some (JStr t));
     response_head := respond None;
     response_send := fun b => respond (Some b);
     Response_redirect := fun loc code =>
       mkResponse code "" {[ "location" := loc ]} None;
     encodeURI := fun u => u |}.

End Demo.

(** ** The class [AppContext] *)

Section Zarf.

Context `{RT : Runtime}.

Record ContextMeta : Type := mkMeta {
  startTime : Z
}.

Record AppContext : Type := mkAppContext {
  _response : option Response;
  _config : ZarfConfig;
  _error : option ErrorValue;
  _code : option Z;
  _middlewares : list MiddlewareFunction;
  _request : Request;
  url : URL;
  method : string;
  host : string;
  path : string;
  query : string -> option string;
  headers : string -> option string;
  _locals : Locals;
  meta : ContextMeta;
  _isImmediate : bool;
  body : option ParsedBody
}.

(** The constructor; [now] is the value of [Date.now()].  The warm-up read of
    the request body only concerns the transport and leaves every field as it
    is. *)
Definition new_AppContext (req : Request) (config : ZarfConfig) (now : Z) : AppContext :=
  let u := URL_new (req_url req) in
  let pathname := url_pathname u in
  let response0 := Response_new in
  {| _response :=
       Some (if truthy_string (serverHeader config)
             then {| resp_status := resp_status response0;
                     resp_statusText := resp_statusText response0;
                     resp_headers :=
                       Headers_set (resp_headers response0) "Server"
                                   (default "" (serverHeader config));
                     resp_body := resp_body response0 |}
             else response0);
     _config := config;
     _error := None;
     _code := None;
     _middlewares := [];
     _request := req;
     url := u;
     method := JS.toLowerCase (req_method req);
     host := url_host u;
     path :=
       if (truthy_flag (strictRouting config) || String.eqb pathname "/")%bool
       then pathname
       else if JS.endsWith pathname "/"
            then JS.substring pathname 0 (Z.of_nat (String.length pathname) - 1)
            else pathname;
     query := URLSearchParams_get (req_url req);
     headers := Headers_get (req_headers req);
     _locals := locals_empty;
     meta := {| startTime := now |};
     _isImmediate := false;
     body := None |}.

(** Field updates, one per assignment the class performs. *)
Definition with_response (r : option Response) (ctx : AppContext) : AppContext :=
  {| _response := r; _config := _config ctx; _error := _error ctx;
     _code := _code ctx; _middlewares := _middlewares ctx;
     _request := _request ctx; url := url ctx; method := method ctx;
     host := host ctx; path := path ctx; query := query ctx;
     headers := headers ctx; _locals := _locals ctx; meta := meta ctx;
     _isImmediate := _isImmediate ctx; body := body ctx |}.

Definition with_code (c : option Z) (ctx : AppContext) : AppContext :=
  {| _response := _response ctx; _config := _config ctx; _error := _error ctx;
     _code := c; _middlewares := _middlewares ctx;
     _request := _request ctx; url := url ctx; method := method ctx;
     host := host ctx; path := path ctx; query := query ctx;
     headers := headers ctx; _locals := _locals ctx; meta := meta ctx;
     _isImmediate := _isImmediate ctx; body := body ctx |}.

Definition with_error (e : option ErrorValue) (ctx : AppContext) : AppContext :=
  {| _response := _response ctx; _config := _config ctx; _error := e;
     _code := _code ctx; _middlewares := _middlewares ctx;
     _request := _request ctx; url := url ctx; method := method ctx;
     host := host ctx; path := path ctx; query := query ctx;
     headers := headers ctx; _locals := _locals ctx; meta := meta ctx;
     _isImmediate := _isImmediate ctx; body := body ctx |}.

Definition with_locals (l : Locals) (ctx : AppContext) : AppContext :=
  {| _response := _response ctx; _config := _config ctx; _error := _error ctx;
     _code := _code ctx; _middlewares := _middlewares ctx;
     _request := _request ctx; url := url ctx; method := method ctx;
     host := host ctx; path := path ctx; query := query ctx;
     headers := headers ctx; _locals := l; meta := meta ctx;
     _isImmediate := _isImmediate ctx; body := body ctx |}.

Definition with_body (b : option ParsedBody) (ctx : AppContext) : AppContext :=
  {| _response := _response ctx; _config := _config ctx; _error := _error ctx;
     _code := _code ctx; _middlewares := _middlewares ctx;
     _request := _request ctx; url := url ctx; method := method ctx;
     host := host ctx; path := path ctx; query := query ctx;
     headers := headers ctx; _locals := _locals ctx; meta := meta ctx;
     _isImmediate := _isImmediate ctx; body := b |}.

Definition with_isImmediate (b : bool) (ctx : AppContext) : AppContext :=
  {| _response := _response ctx; _config := _config ctx; _error := _error ctx;
     _code := _code ctx; _middlewares := _middlewares ctx;
     _request := _request ctx; url := url ctx; method := method ctx;
     host := host ctx; path := path ctx; query := query ctx;
     headers := headers ctx; _locals := _locals ctx; meta := meta ctx;
     _isImmediate := b; body := body ctx |}.

Definition with_middlewares (l : list MiddlewareFunction) (ctx : AppContext) : AppContext :=
  {| _response := _response ctx; _config := _config ctx; _error := _error ctx;
     _code := _code ctx; _middlewares := l;
     _request := _request ctx; url := url ctx; method := method ctx;
     host := host ctx; path := path ctx; query := query ctx;
     headers := headers ctx; _locals := _locals ctx; meta := meta ctx;
     _isImmediate := _isImmediate ctx; body := body ctx |}.

(** Getters and setters. *)
Definition request (ctx : AppContext) : Request := _request ctx.
Definition response (ctx : AppContext) : option Response := _response ctx.
Definition set_response (r : option Response) (ctx : AppContext) : AppContext :=
  with_response r ctx.
Definition status (ctx : AppContext) : option Z := _code ctx.
Definition set_status (code : Z) (ctx : AppContext) : AppContext :=
  with_code (Some code) ctx.
Definition isImmediate (ctx : AppContext) : bool := _isImmediate ctx.
Definition error (ctx : AppContext) : option ErrorValue := _error ctx.
Definition set_error (e : option ErrorValue) (ctx : AppContext) : AppContext :=
  with_error e ctx.
Definition locals (ctx : AppContext) : Locals := _locals ctx.
Definition set_locals (l : Locals) (ctx : AppContext) : AppContext :=
  with_locals l ctx.

(** Header helpers.  [this._response?.headers.set(k, v)] does nothing when
    there is no response. *)
Definition response_set_header (k v : string) (r : Response) : Response :=
  {| resp_status := resp_status r; resp_statusText := resp_statusText r;
     resp_headers := Headers_set (resp_headers r) k v;
     resp_body := resp_body r |}.

Definition setHeader (headerKey headerVal : string) (ctx : AppContext) : AppContext :=
  with_response (response_set_header headerKey headerVal <$> _response ctx) ctx.

Definition setType (headerVal : string) (ctx : AppContext) : AppContext :=
  match getContentType headerVal with
  | Some contentType =>
      if negb (String.eqb contentType "")
      then setHeader "Content-Type" contentType ctx
      else ctx
  | None => ctx
  end.

(** [===] between the header (a string or [null]) and the content type (a
    string or nothing): only two equal strings compare equal. *)
Definition isType (headerVal : string) (ctx : AppContext) : bool :=
  match Headers_get (req_headers (_request ctx)) "Content-Type",
        getContentType headerVal with
  | Some v, Some contentType => String.eqb v contentType
  | _, _ => false
  end.

(** [accepts]: [undefined] when the request has no such header. *)
Definition accepts (headerVal : string) (ctx : AppContext) : option bool :=
  match Headers_get (req_headers (_request ctx)) "Accepts" with
  | Some v =>
      Some (JS.includes v
              (match getContentType headerVal with
               | Some contentType => contentType
               | None => ""
               end))
  | None => None
  end.

(** [setVary(...headerVals)] *)
Definition setVary (headerVals : list string) (ctx : AppContext) : AppContext :=
  match headerVals with
  | [] => ctx
  | _ :: _ =>
      match _response ctx with
      | None => ctx
      | Some r =>
          let current :=
            match Headers_get (resp_headers r) "Vary" with
            | Some v => if String.eqb v "" then "" else v
            | None => ""
            end in
          let varies := JS.split "," current in
          with_response
            (Some (response_set_header "Vary"
                     (JS.join "," (JS.Set_of (varies ++ headerVals))) r))
            ctx
      end
  end.

(** [getResponseInit()]: the status, status text and headers of the response in
    progress, the headers copied into a plain object. *)
Definition getResponseInit (ctx : AppContext) : ResponseInit :=
  match _response ctx with
  | Some r =>
      {| init_headers := Some (resp_headers r);
         init_status := Some (resp_status r);
         init_statusText := Some (resp_statusText r) |}
  | None => init_empty
  end.

(** Response helpers. *)
Definition json (b : JSONValue) (args : ResponseInit) (ctx : AppContext) : Response :=
  response_json b (spread (getResponseInit ctx) args).

Definition text (t : string) (args : ResponseInit) (ctx : AppContext) : Response :=
  response_text t (spread (getResponseInit ctx) args).

Definition html (t : string) (args : ResponseInit) (ctx : AppContext) : Response :=
  response_html t (spread (getResponseInit ctx) args).

Definition head (args : ResponseInit) (ctx : AppContext) : Response :=
  response_head (spread (getResponseInit ctx) args).

(** [send]: the value the returned promise resolves to. *)
Definition send (b : JSONValue) (args : ResponseInit) (ctx : AppContext) : Response :=
  if String.eqb (req_method (_request ctx)) "HEAD"
  then head init_empty ctx
  else response_send b (spread (getResponseInit ctx) args).

(** [halt(statusCode, body?)]: always throws. *)
Definition halt_payload (statusCode : Z) (b : option JSONValue) (ctx : AppContext)
  : ZarfHaltError :=
  {| halt_statusCode := statusCode;
     halt_body :=
       match b with
       | Some v => if truthy v then v else JStr (HTTP_STATUS_CODES statusCode)
       | None => JStr (HTTP_STATUS_CODES statusCode)
       end;
     halt_init :=
       spread (getResponseInit ctx)
              {| init_headers := None;
                 init_status := Some statusCode;
                 init_statusText := None |} |}.

Definition halt {A : Type} (statusCode : Z) (b : option JSONValue) (ctx : AppContext)
  : Completion ErrorValue A :=
  Throw (ThrownHalt (halt_payload statusCode b ctx)).

(** [redirect(url, statusCode = 302)] *)
Definition redirect (target : string) (statusCode : option Z) (ctx : AppContext)
  : Response * AppContext :=
  let ctx' := with_isImmediate true ctx in
  let loc :=
    if String.eqb target "back"
    then match Headers_get (req_headers (_request ctx)) "Referrer" with
         | Some v => if String.eqb v "" then "/" else v
         | None => "/"
         end
    else target in
  (Response_redirect (encodeURI loc) (default 302 statusCode), ctx').

(** [after(func)] and the getter [afterMiddlewares]. *)
Definition after (func : MiddlewareFunction) (ctx : AppContext) : AppContext :=
  with_middlewares (_middlewares ctx ++ [func]) ctx.

Definition afterMiddlewares (ctx : AppContext) : list MiddlewareFunction :=
  _middlewares ctx.

(** *** The operations of the class, as data

    A piece of handler or middleware code acts on its context through these
    calls only. *)
Inductive ContextOp : Type :=
| OpGetRequest
| OpGetResponse
| OpSetResponse (r : option Response)
| OpGetStatus
| OpSetStatus (code : Z)
| OpGetIsImmediate
| OpSetHeader (headerKey headerVal : string)
| OpSetType (headerVal : string)
| OpIsType (headerVal : string)
| OpAccepts (headerVal : string)
| OpSetVary (headerVals : list string)
| OpGetError
| OpSetError (e : option ErrorValue)
| OpGetLocals
| OpSetLocals (l : Locals)
| OpSetBody (b : option ParsedBody)
| OpSend (b : JSONValue) (args : ResponseInit)
| OpJson (b : JSONValue) (args : ResponseInit)
| OpText (t : string) (args : ResponseInit)
| OpHtml (t : string) (args : ResponseInit)
| OpHead (args : ResponseInit)
| OpHalt (statusCode : Z) (b : option JSONValue)
| OpRedirect (target : string) (statusCode : option Z)
| OpAfter (func : MiddlewareFunction)
| OpGetAfterMiddlewares.

Inductive OpValue : Type :=
| VUndefined
| VBool (b : option bool)
| VNumber (n : option Z)
| VRequest (r : Request)
| VResponse (r : option Response)
| VError (e : option ErrorValue)
| VLocals (l : Locals)
| VMiddlewares (l : list MiddlewareFunction).

Definition exec_op (op : ContextOp) (ctx : AppContext)
  : Completion ErrorValue OpValue * AppContext :=
  match op with
  | OpGetRequest => (Normal (VRequest (request ctx)), ctx)
  | OpGetResponse => (Normal (VResponse (response ctx)), ctx)
  | OpSetResponse r => (Normal VUndefined, set_response r ctx)
  | OpGetStatus => (Normal (VNumber (status ctx)), ctx)
  | OpSetStatus code => (Normal VUndefined, set_status code ctx)
  | OpGetIsImmediate => (Normal (VBool (Some (isImmediate ctx))), ctx)
  | OpSetHeader k v => (Normal VUndefined, setHeader k v ctx)
  | OpSetType t => (Normal VUndefined, setType t ctx)
  | OpIsType t => (Normal (VBool (Some (isType t ctx))), ctx)
  | OpAccepts t => (Normal (VBool (accepts t ctx)), ctx)
  | OpSetVary vals => (Normal VUndefined, setVary vals ctx)
  | OpGetError => (Normal (VError (error ctx)), ctx)
  | OpSetError e => (Normal VUndefined, set_error e ctx)
  | OpGetLocals => (Normal (VLocals (locals ctx)), ctx)
  | OpSetLocals l => (Normal VUndefined, set_locals l ctx)
  | OpSetBody b => (Normal VUndefined, with_body b ctx)
  | OpSend b args => (Normal (VResponse (Some (send b args ctx))), ctx)
  | OpJson b args => (Normal (VResponse (Some (json b args ctx))), ctx)
  | OpText t args => (Normal (VResponse (Some (text t args ctx))), ctx)
  | OpHtml t args => (Normal (VResponse (Some (html t args ctx))), ctx)
  | OpHead args => (Normal (VResponse (Some (head args ctx))), ctx)
  | OpHalt statusCode b => (halt statusCode b ctx, ctx)
  | OpRedirect target statusCode =>
      let '(r, ctx') := redirect target statusCode ctx in
      (Normal (VResponse (Some r)), ctx')
  | OpAfter func => (Normal VUndefined, after func ctx)
  | OpGetAfterMiddlewares => (Normal (VMiddlewares (afterMiddlewares ctx)), ctx)
  end.

(** A straight-line run of calls: it stops at the first one that throws. *)
Fixpoint exec_ops (ops : list ContextOp) (ctx : AppContext)
  : Completion ErrorValue unit * AppContext :=
  match ops with
  | [] => (Normal tt, ctx)
  | op :: ops' =>
      match exec_op op ctx with
      | (Normal _, ctx') => exec_ops ops' ctx'
      | (Throw t, ctx') => (Throw t, ctx')
      end
  end.

(** The context after a series of calls, whatever each of them returned or
    threw (a caller may catch what a call throws and go on). *)
Definition state_after (ops : list ContextOp) (ctx : AppContext) : AppContext :=
  fold_left (fun c op => snd (exec_op op c)) ops ctx.

(** The functions handed to [after] by a series of calls, in call order. *)
Definition after_args (ops : list ContextOp) : list MiddlewareFunction :=
  omap (fun op => match op with OpAfter func => Some func | _ => None end) ops.

(** The functions handed to [after] by a run of calls, in call order, up to the
    first call that throws. *)
Fixpoint enqueued (ops : list ContextOp) : list MiddlewareFunction :=
  match ops with
  | [] => []
  | OpAfter func :: ops' => func :: enqueued ops'
  | OpHalt _ _ :: _ => []
  | _ :: ops' => enqueued ops'
  end.

(** ** Registry, Matcher and Dispatcher (specification, 4.2 to 4.6) *)

(** The type of route handlers, [(context, params) → result]. *)
Context {Handler : Type}.

(** Modelled from the spec: the CompiledRoute of the data model; the registry
    is in the router module, which the sources do not include.  [route_before] is the effective
    before-chain, root group first; an entry [(d, f)] of [route_after] is an
    after-middleware [f] declared by a group that is entered once [d] links of
    the before-chain have passed control on. *)
Record CompiledRoute : Type := mkRoute {
  route_method : string;
  route_segments : list Pattern.Segment;
  route_params : gset string;
  route_handler : Handler;
  route_before : list MiddlewareFunction;
  route_after : list (nat * MiddlewareFunction);
  route_index : nat
}.

(** Modelled from the spec: [register] of 4.3, which compiles the pattern and
    appends the route to the list kept in registration order; [None] is the
    configuration error raised by the Pattern Compiler. *)
Definition register (reg : list CompiledRoute) (m fullPath : string) (h : Handler)
    (before : list MiddlewareFunction) (after_chain : list (nat * MiddlewareFunction))
  : option (list CompiledRoute) :=
  match Pattern.compile fullPath with
  | Some segs =>
      Some (reg ++ [ {| route_method := m;
                        route_segments := segs;
                        route_params := Pattern.param_names segs;
                        route_handler := h;
                        route_before := before;
                        route_after := after_chain;
                        route_index := length reg |} ])
  | None => None
  end.

(** Modelled from the spec: the first step of the Matcher (4.2), which the
    sources do not include: the routes of the registry are filtered by
    method, registration order kept. *)
Definition candidates (reg : list CompiledRoute) (m : string) : list CompiledRoute :=
  filter (fun r => route_method r = m) reg.

(** Modelled from the spec: the second step of the Matcher (4.2): the
    candidates are tried in registration order and the first one whose
    pattern matches is returned with its bindings. *)
Fixpoint first_match (cands : list CompiledRoute) (segs : list string)
  : option (CompiledRoute * gmap string string) :=
  match cands with
  | [] => None
  | r :: cands' =>
      match Pattern.match_segments (route_segments r) segs with
      | Some params => Some (r, params)
      | None => first_match cands' segs
      end
  end.

(** Modelled from the spec: the contract [match(method, path)] of the Matcher
    (4.2), which the sources do not include; [None] is NOT_FOUND. *)
Definition match_route (reg : list CompiledRoute) (m p : string)
  : option (CompiledRoute * gmap string string) :=
  first_match (candidates reg m) (Pattern.segments_of p).

(** *** Chain links *)

(** Modelled from the spec: how the code of a link that runs after [next()]
    has returned ends (4.4, b): it returns a value, the result of [next()]
    or one of its own, or throws.  The middleware module is not among the
    sources. *)
Inductive TailEnd : Type :=
| TailReturn (r : option Response)
| TailThrow (e : ErrorValue).

(** Modelled from the spec: the post-processing of a link (4.4, b), the calls
    it makes on the context once [next()] has returned, then how it ends. *)
Record Tail : Type := mkTail {
  tail_calls : list ContextOp;
  tail_end : TailEnd
}.

(** Modelled from the spec: how the body of a chain link ends (4.4): it calls
    [next()] and goes on with the result, [post] being what it does with the
    value [next()] returned on the context as it then is; or it returns a
    value of its own without calling [next()]; or it throws.  The middleware
    module is not among the sources. *)
Inductive ScriptEnd : Type :=
| CallNext (post : option Response -> AppContext -> Tail)
| Return (r : option Response)
| ThrowError (e : ErrorValue).

(** Modelled from the spec: the pass-through link of 4.4 (a), which returns
    the result of [next()] as it is. *)
Definition pass_on (r : option Response) (ctx : AppContext) : Tail :=
  {| tail_calls := []; tail_end := TailReturn r |}.

(** Modelled from the spec: what a handler or middleware does when it is
    invoked on a context (4.4, 6): the calls it makes on the context, then
    how it ends. *)
Record Script : Type := mkScript {
  script_calls : list ContextOp;
  script_end : ScriptEnd
}.

(** The behaviour of the function values of the application. *)
Variable middleware_script : MiddlewareFunction -> AppContext -> Script.
Variable handler_script : Handler -> AppContext -> gmap string string -> Script.

(** Modelled from the spec: the result of a chain link as the tagged union of
    the design notes (9), halt being a variant of its own; [Continue] is the
    link that has called [next()] and waits for its result. *)
Inductive LinkResult : Type :=
| Continue (post : option Response -> AppContext -> Tail)
| Respond (r : option Response)
| Halted (h : ZarfHaltError)
| Fault (e : ErrorValue).

(** Modelled from the spec: one link run on a context (4.4, 4.5), up to its
    call of [next()] or its end; a halt ends it at once, whatever the link
    would have done next.  The dispatcher is not among the sources. *)
Definition run_script (s : Script) (ctx : AppContext) : LinkResult * AppContext :=
  match exec_ops (script_calls s) ctx with
  | (Normal _, ctx') =>
      (match script_end s with
       | CallNext post => Continue post
       | Return r => Respond r
       | ThrowError e => Fault e
       end, ctx')
  | (Throw (ThrownHalt h), ctx') => (Halted h, ctx')
  | (Throw (ThrownError e), ctx') => (Fault e, ctx')
  end.

(** Modelled from the spec: the post-processing of a link run on a context
    (4.4, b; 4.5): it may still make calls, [after] and [halt] among them. *)
Definition run_tail (t : Tail) (ctx : AppContext) : LinkResult * AppContext :=
  match exec_ops (tail_calls t) ctx with
  | (Normal _, ctx') =>
      (match tail_end t with
       | TailReturn r => Respond r
       | TailThrow e => Fault e
       end, ctx')
  | (Throw (ThrownHalt h), ctx') => (Halted h, ctx')
  | (Throw (ThrownError e), ctx') => (Fault e, ctx')
  end.

(** Modelled from the spec: the position a middleware is run in (2,
    Dispatcher): before the handler, as a group-declared after-middleware, or
    as one enqueued on the context. *)
Inductive Role : Type :=
| BeforeRole
| DeclaredAfter
| DynamicAfter.

(** Modelled from the spec: what an observer of one request sees of the
    dispatcher (4.6), the invocations of links, the return of control into a
    link that called [next()], and the functions the links enqueue. *)
Inductive Event : Type :=
| InvokedMiddleware (role : Role) (f : MiddlewareFunction)
| InvokedHandler (h : Handler)
| ResumedMiddleware (f : MiddlewareFunction)
| Enqueued (f : MiddlewareFunction).

(** Modelled from the spec: the invocation of a middleware by the dispatcher
    (4.4), up to its call of [next()] or its end, with what it lets an
    observer see. *)
Definition run_middleware (role : Role) (f : MiddlewareFunction) (ctx : AppContext)
  : LinkResult * AppContext * list Event :=
  let s := middleware_script f ctx in
  let '(res, ctx') := run_script s ctx in
  (res, ctx', InvokedMiddleware role f :: (Enqueued <$> enqueued (script_calls s))).

(** Modelled from the spec: the return of control into a link whose [next()]
    gave [r] (4.4, b), with what it lets an observer see. *)
Definition resume_middleware (f : MiddlewareFunction)
    (post : option Response -> AppContext -> Tail) (r : option Response)
    (ctx : AppContext) : LinkResult * AppContext * list Event :=
  let t := post r ctx in
  let '(res, ctx') := run_tail t ctx in
  (res, ctx', ResumedMiddleware f :: (Enqueued <$> enqueued (tail_calls t))).

(** Modelled from the spec: the invocation of the route handler by the
    dispatcher (4.4), with what it lets an observer see. *)
Definition run_handler (h : Handler) (params : gmap string string) (ctx : AppContext)
  : LinkResult * AppContext * list Event :=
  let s := handler_script h ctx params in
  let '(res, ctx') := run_script s ctx in
  (res, ctx', InvokedHandler h :: (Enqueued <$> enqueued (script_calls s))).

(** Modelled from the spec: how the composed chain of before-middleware and
    handler ends (4.4 to 4.6).  [n] counts the before-links that passed
    control on. *)
Inductive ChainEnd : Type :=
| Completed (r : option Response)
| ShortCircuited (r : option Response)
| HaltedAt (h : ZarfHaltError) (n : nat)
| Faulted (e : ErrorValue).

(** Modelled from the spec: RUNNING_BEFORE and RUNNING_HANDLER, depth first
    (4.4).  A link runs up to its call of [next()]; [next()] runs the rest of
    the chain, the handler last; when that returns a value, control comes
    back into the link, which post-processes it (b).  A link that returns
    without calling [next()] keeps the rest of the chain from running (c); a
    halt or a fault, wherever it is raised, goes through every enclosing link
    to the dispatcher (4.5).  The results are that of the chain, the number of
    links that passed control on, whether the handler was reached, the
    context and what was observed. *)
Fixpoint run_before (links : list MiddlewareFunction) (h : Handler)
    (params : gmap string string) (n : nat) (ctx : AppContext)
  : LinkResult * nat * bool * AppContext * list Event :=
  match links with
  | [] =>
      let '(res, ctx', ev) := run_handler h params ctx in
      (match res with
       | Continue _ => Respond None
       | _ => res
       end, n, true, ctx', ev)
  | f :: links' =>
      let '(res, ctx1, ev1) := run_middleware BeforeRole f ctx in
      match res with
      | Continue post =>
          let '(res2, n2, handled, ctx2, ev2) :=
            run_before links' h params (S n) ctx1 in
          match res2 with
          | Respond r =>
              let '(res3, ctx3, ev3) := resume_middleware f post r ctx2 in
              (res3, n2, handled, ctx3, ev1 ++ ev2 ++ ev3)
          | _ => (res2, n2, handled, ctx2, ev1 ++ ev2)
          end
      | _ => (res, n, false, ctx1, ev1)
      end
  end.

(** Modelled from the spec: the composed chain of a route run on a context,
    and how it ended (4.6). *)
Definition run_chain (route : CompiledRoute) (params : gmap string string)
    (ctx : AppContext) : ChainEnd * AppContext * list Event :=
  let '(res, n, handled, ctx', ev) :=
    run_before (route_before route) (route_handler route) params 0 ctx in
  (match res with
   | Respond r => if handled then Completed r else ShortCircuited r
   | Continue _ => Completed None
   | Halted h => HaltedAt h n
   | Fault e => Faulted e
   end, ctx', ev).

(** Modelled from the spec: one link of the after-chain (4.6).  It is run for
    its effects: a [next()] it calls gives nothing and returns at once, its
    result is discarded and what it throws is swallowed. *)
Definition run_after_link (role : Role) (f : MiddlewareFunction) (ctx : AppContext)
  : AppContext * list Event :=
  let '(res, ctx1, ev1) := run_middleware role f ctx in
  match res with
  | Continue post =>
      let '(_, ctx2, ev2) := resume_middleware f post None ctx1 in
      (ctx2, ev1 ++ ev2)
  | _ => (ctx1, ev1)
  end.

(** Modelled from the spec: RUNNING_AFTER.  The links of the after-chain, as
    composed when the state was entered, are run one after the other. *)
Fixpoint run_after (links : list (Role * MiddlewareFunction)) (ctx : AppContext)
  : AppContext * list Event :=
  match links with
  | [] => (ctx, [])
  | (role, f) :: links' =>
      let '(ctx', ev) := run_after_link role f ctx in
      let '(ctx'', ev') := run_after links' ctx' in
      (ctx'', ev ++ ev')
  end.

(** Modelled from the spec: the group-declared after-middleware that runs, by
    the way the chain ended: all of it after the handler returned, that of the
    groups entered after a halt (4.5), none after a link that kept control
    (4.4). *)
Definition declared_after (e : ChainEnd) (route : CompiledRoute)
  : list MiddlewareFunction :=
  match e with
  | Completed _ => snd <$> route_after route
  | HaltedAt _ n => snd <$> filter (fun p => (fst p <= n)%nat) (route_after route)
  | ShortCircuited _ => []
  | Faulted _ => []
  end.

(** Modelled from the spec: the after-chain of RUNNING_AFTER, group-declared
    links first, then the queue as the context holds it when the state is
    entered (2, Dispatcher).  The design notes (9) have the queue appended to
    only before RUNNING_AFTER is entered: what a link of the after-chain
    enqueues is put on the queue of the context and is not part of the
    chain. *)
Definition after_chain_of (e : ChainEnd) (route : CompiledRoute) (ctx : AppContext)
  : list (Role * MiddlewareFunction) :=
  (pair DeclaredAfter <$> declared_after e route)
  ++ (pair DynamicAfter <$> afterMiddlewares ctx).

(** Modelled from the spec: the final response built from a halt payload,
    [(statusCode, body, currentResponseHeaders)] (4.5). *)
Definition halt_response (h : ZarfHaltError) : Response :=
  {| resp_status := halt_statusCode h;
     resp_statusText := default "" (init_statusText (halt_init h));
     resp_headers := default ∅ (init_headers (halt_init h));
     resp_body := Some (halt_body h) |}.

(** Modelled from the spec: the final response value is the one a link
    returned, or else the one the context holds (2, data flow). *)
Definition returned_response (r : option Response) (ctx : AppContext) : Response :=
  match r with
  | Some x => x
  | None => default Response_new (_response ctx)
  end.

(** Modelled from the spec: the terminal outcomes of the dispatcher (4.6, 7):
    a response, the not-found outcome, or a fault handed to the application
    boundary. *)
Inductive Outcome : Type :=
| Resolved (r : Response)
| ResolvedNotFound
| ResolvedError (e : ErrorValue).

(** Modelled from the spec: a resolved request (4.6), with how its chain
    ended and what was observed before and during RUNNING_AFTER. *)
Record Dispatched : Type := mkDispatched {
  outcome : Outcome;
  chain_end : option ChainEnd;
  chain_trace : list Event;
  after_trace : list Event
}.

(** Modelled from the spec: the Dispatcher state machine of 4.6,
    MATCHING, RUNNING_BEFORE, RUNNING_HANDLER, RUNNING_AFTER, RESOLVED. *)
Definition dispatch (reg : list CompiledRoute) (req : Request) (config : ZarfConfig)
    (now : Z) : Dispatched :=
  let ctx := new_AppContext req config now in
  match match_route reg (method ctx) (path ctx) with
  | None =>
      {| outcome := ResolvedNotFound; chain_end := None;
         chain_trace := []; after_trace := [] |}
  | Some (route, params) =>
      let '(e, ctx', ev) := run_chain route params ctx in
      match e with
      | Faulted err =>
          {| outcome := ResolvedError err; chain_end := Some e;
             chain_trace := ev; after_trace := [] |}
      | Completed r | ShortCircuited r =>
          let '(_, ev') := run_after (after_chain_of e route ctx') ctx' in
          {| outcome := Resolved (returned_response r ctx'); chain_end := Some e;
             chain_trace := ev; after_trace := ev' |}
      | HaltedAt h _ =>
          let '(_, ev') := run_after (after_chain_of e route ctx') ctx' in
          {| outcome := Resolved (halt_response h); chain_end := Some e;
             chain_trace := ev; after_trace := ev' |}
      end
  end.

(** Modelled from the spec: the functions a trace of the dispatcher shows
    enqueued through [after], in order. *)
Definition enqueued_in (tr : list Event) : list MiddlewareFunction :=
  omap (fun ev => match ev with Enqueued f => Some f | _ => None end) tr.

(** Modelled from the spec: the dynamic after-middleware a trace of the
    dispatcher shows invoked, in order. *)
Definition dynamic_runs (tr : list Event) : list MiddlewareFunction :=
  omap (fun ev => match ev with
                  | InvokedMiddleware DynamicAfter f => Some f
                  | _ => None
                  end) tr.

(** * Properties *)

(** ** Strings *)

Lemma append_cons (a : ascii) (s t : string) :
  String a s +:+ t = String a (s +:+ t).
Proof. reflexivity. Qed.

Lemma append_nil_r (s : string) : s +:+ "" = s.
Proof. induction s as [|a s IH]; [reflexivity|]. rewrite append_cons. by f_equal. Qed.

Lemma length_append (s t : string) :
  String.length (s +:+ t) = (String.length s + String.length t)%nat.
Proof. induction s as [|a s IH]; [reflexivity|]. rewrite append_cons. simpl. by rewrite IH. Qed.

Lemma append_inj_l (p q t : string) : p +:+ t = q +:+ t -> p = q.
Proof.
  intros H.
  assert (Hlen : String.length p = String.length q).
  { apply (f_equal String.length) in H. rewrite !length_append in H.
    apply Nat.add_cancel_r in H. exact H. }
  revert q H Hlen. induction p as [|a p IH]; intros [|b q] H Hlen; try discriminate.
  - reflexivity.
  - rewrite !append_cons in H. injection H as -> H. f_equal. apply IH; [done|].
    simpl in Hlen. congruence.
Qed.

Lemma endsWith_unfold (s t : string) :
  JS.endsWith s t =
  if String.eqb s t then true
  else match s with
       | EmptyString => false
       | String _ s' => JS.endsWith s' t
       end.
Proof. by destruct s. Qed.

Lemma endsWith_suffix (s t : string) :
  JS.endsWith s t = true <-> exists p, s = p +:+ t.
Proof.
  split.
  - induction s as [|a s IH]; rewrite endsWith_unfold.
    + destruct (String.eqb_spec "" t) as [<-|]; [|discriminate].
      intros _. by exists "".
    + destruct (String.eqb_spec (String a s) t) as [<-|_].
      * intros _. by exists "".
      * intros H. destruct (IH H) as [p ->]. by exists (String a p).
  - intros [p ->]. induction p as [|a p IH]; rewrite endsWith_unfold.
    + change ("" +:+ t) with t. by rewrite String.eqb_refl.
    + rewrite append_cons, IH. by destruct (String.eqb _ _).
Qed.

Lemma substring_prefix (p t : string) :
  String.substring 0 (String.length p) (p +:+ t) = p.
Proof.
  induction p as [|a p IH].
  - change ("" +:+ t) with t. by destruct t.
  - rewrite append_cons. simpl. by f_equal.
Qed.

Lemma substring_drop_last (p : string) (c : ascii) :
  let s := p +:+ String c "" in
  JS.substring s 0 (Z.of_nat (String.length s) - 1) = p.
Proof.
  intros s. unfold JS.substring, JS.clamp.
  assert (Hlen : String.length s = S (String.length p)).
  { unfold s. rewrite length_append. simpl. lia. }
  rewrite Hlen.
  replace (Z.min (Z.max 0 (Z.min 0 (Z.of_nat (S (String.length p)))))
             (Z.max 0 (Z.min (Z.of_nat (S (String.length p)) - 1)
                             (Z.of_nat (S (String.length p)))))) with 0 by lia.
  replace (Z.max (Z.max 0 (Z.min 0 (Z.of_nat (S (String.length p)))))
             (Z.max 0 (Z.min (Z.of_nat (S (String.length p)) - 1)
                             (Z.of_nat (S (String.length p)))))
           - 0) with (Z.of_nat (String.length p)) by lia.
  rewrite Nat2Z.id. change (Z.to_nat 0) with 0%nat. apply substring_prefix.
Qed.

(** ** Splitting, joining and the insertion-ordered set *)

Lemma split_unfold (c a : ascii) (s : string) :
  JS.split c (String a s) =
  if Ascii.eqb a c then EmptyString :: JS.split c s
  else match JS.split c s with
       | [] => [String a EmptyString]
       | w :: ws => String a w :: ws
       end.
Proof. reflexivity. Qed.

Lemma split_not_nil (c : ascii) (s : string) : JS.split c s <> [].
Proof.
  induction s as [|a s IH]; [done|]. rewrite split_unfold.
  destruct (Ascii.eqb a c); [done|]. by destruct (JS.split c s).
Qed.

Lemma split_free (c : ascii) (s : string) :
  Forall (fun w => JS.free_of c w = true) (JS.split c s).
Proof.
  induction s as [|a s IH]; [by repeat constructor|]. rewrite split_unfold.
  destruct (Ascii.eqb a c) eqn:Hac; [by constructor|].
  pose proof (split_not_nil c s) as Hne.
  destruct (JS.split c s) as [|w ws]; [done|].
  inversion IH as [|? ? Hw Hws]; subst. constructor; [|done].
  simpl. by rewrite Hac.
Qed.

Lemma split_of_free (c : ascii) (x : string) :
  JS.free_of c x = true -> JS.split c x = [x].
Proof.
  induction x as [|a x IH]; [done|]. simpl.
  destruct (Ascii.eqb a c); [done|]. simpl. intros H. by rewrite (IH H).
Qed.

Lemma split_free_sep (c : ascii) (x t : string) :
  JS.free_of c x = true ->
  JS.split c (x +:+ String c t) = x :: JS.split c t.
Proof.
  induction x as [|a x IH]; intros Hx.
  - change ("" +:+ String c t) with (String c t).
    rewrite split_unfold. by rewrite Ascii.eqb_refl.
  - rewrite append_cons, split_unfold. simpl in Hx.
    destruct (Ascii.eqb a c); [done|]. simpl in Hx. by rewrite (IH Hx).
Qed.

Lemma split_join (c : ascii) (l : list string) :
  l <> [] ->
  Forall (fun w => JS.free_of c w = true) l ->
  JS.split c (JS.join (String c "") l) = l.
Proof.
  induction l as [|x l IH]; [done|]. intros _ Hall.
  inversion Hall as [|? ? Hx Hl]; subst.
  destruct l as [|y l].
  - simpl. by apply split_of_free.
  - change (JS.join (String c "") (x :: y :: l))
      with (x +:+ String c "" +:+ JS.join (String c "") (y :: l)).
    change (String c "" +:+ JS.join (String c "") (y :: l))
      with (String c (JS.join (String c "") (y :: l))).
    rewrite split_free_sep by done. f_equal. by apply IH.
Qed.

Lemma Set_add_elem (acc : list string) (x y : string) :
  y ∈ JS.Set_add acc x <-> y ∈ acc \/ y = x.
Proof.
  unfold JS.Set_add. destruct (decide (x ∈ acc)) as [Hin|Hout].
  - split; [by left|]. by intros [?| ->].
  - rewrite elem_of_app, list_elem_of_singleton. tauto.
Qed.

Lemma Set_fold_elem (l acc : list string) (y : string) :
  y ∈ fold_left JS.Set_add l acc <-> y ∈ acc \/ y ∈ l.
Proof.
  revert acc. induction l as [|x l IH]; intros acc; simpl.
  - rewrite elem_of_nil. tauto.
  - rewrite IH, Set_add_elem, elem_of_cons. tauto.
Qed.

Lemma Set_fold_NoDup (l acc : list string) :
  NoDup acc -> NoDup (fold_left JS.Set_add l acc).
Proof.
  revert acc. induction l as [|x l IH]; intros acc Hacc; [done|]. simpl.
  apply IH. unfold JS.Set_add. destruct (decide (x ∈ acc)); [done|].
  apply NoDup_app. split; [done|]. split; [|apply NoDup_singleton].
  intros y Hy Hyx. apply list_elem_of_singleton in Hyx. by subst.
Qed.

Lemma Set_fold_absorb (l acc : list string) :
  (forall x, x ∈ l -> x ∈ acc) -> fold_left JS.Set_add l acc = acc.
Proof.
  revert acc. induction l as [|x l IH]; intros acc Hsub; [done|]. simpl.
  assert (Hx : x ∈ acc) by (apply Hsub; left).
  unfold JS.Set_add at 2. rewrite decide_True by done.
  apply IH. intros y Hy. apply Hsub. by right.
Qed.

Lemma Set_fold_fresh (l acc : list string) :
  NoDup (acc ++ l) -> fold_left JS.Set_add l acc = acc ++ l.
Proof.
  revert acc. induction l as [|x l IH]; intros acc Hnd; simpl.
  - by rewrite app_nil_r.
  - apply NoDup_app in Hnd as (Hacc & Hdisj & Hxl).
    unfold JS.Set_add. rewrite decide_False.
    + rewrite IH; [by rewrite <- app_assoc|].
      rewrite <- app_assoc. simpl. apply NoDup_app. by repeat split.
    + intros Hin. apply (Hdisj x Hin). left.
Qed.

Lemma Set_of_NoDup (l : list string) : NoDup (JS.Set_of l).
Proof. apply Set_fold_NoDup, NoDup_nil_2. Qed.

Lemma Set_of_again (l extra : list string) :
  (forall x, x ∈ extra -> x ∈ l) ->
  JS.Set_of (JS.Set_of l ++ extra) = JS.Set_of l.
Proof.
  intros Hsub. unfold JS.Set_of at 1. rewrite fold_left_app.
  rewrite (Set_fold_fresh (JS.Set_of l) []) by apply Set_of_NoDup.
  simpl. apply Set_fold_absorb. intros x Hx.
  apply Set_fold_elem. right. by apply Hsub.
Qed.

Lemma Set_of_Forall (P : string -> Prop) (l : list string) :
  Forall P l -> Forall P (JS.Set_of l).
Proof.
  rewrite !Forall_forall. intros Hl x Hx.
  apply Set_fold_elem in Hx as [Hx|Hx]; [by apply elem_of_nil in Hx|]. by apply Hl.
Qed.

Lemma Set_of_not_nil (l : list string) : l <> [] -> JS.Set_of l <> [].
Proof.
  destruct l as [|x l]; [done|]. intros _ Hnil.
  assert (Hx : x ∈ JS.Set_of (x :: l)) by (apply Set_fold_elem; right; left).
  rewrite Hnil in Hx. by apply elem_of_nil in Hx.
Qed.

Lemma or_empty_id (v : string) : (if String.eqb v "" then "" else v) = v.
Proof. by destruct (String.eqb_spec v "") as [->|]. Qed.

(** ** The context *)

Lemma spread_empty_r (a : ResponseInit) : spread a init_empty = a.
Proof. by destruct a. Qed.

Lemma toLowerCase_idemp (s : string) :
  JS.toLowerCase (JS.toLowerCase s) = JS.toLowerCase s.
Proof.
  induction s as [|c s IH]; [reflexivity|]. simpl. f_equal; [|exact IH].
  destruct c as [[] [] [] [] [] [] [] []]; reflexivity.
Qed.

Lemma exec_op_method (op : ContextOp) (ctx : AppContext) :
  method (snd (exec_op op ctx)) = method ctx.
Proof.
  destruct op; try reflexivity.
  - simpl. unfold setType. destruct (getContentType headerVal); [|reflexivity].
    by destruct (negb _).
  - simpl. unfold setVary. destruct headerVals; [reflexivity|].
    by destruct (_response ctx).
Qed.

Lemma state_after_method (ops : list ContextOp) (ctx : AppContext) :
  method (state_after ops ctx) = method ctx.
Proof.
  revert ctx. induction ops as [|op ops IH]; intros ctx; [reflexivity|].
  unfold state_after in *. simpl. rewrite IH. apply exec_op_method.
Qed.

Lemma exec_op_queue (op : ContextOp) (ctx : AppContext) :
  afterMiddlewares (snd (exec_op op ctx))
  = afterMiddlewares ctx ++ match op with OpAfter func => [func] | _ => [] end.
Proof.
  destruct op; simpl; rewrite ?app_nil_r; try reflexivity.
  - unfold setType. destruct (getContentType headerVal); [|reflexivity].
    by destruct (negb _).
  - unfold setVary. destruct headerVals; [reflexivity|].
    by destruct (_response ctx).
Qed.

Lemma state_after_queue (ops : list ContextOp) (ctx : AppContext) :
  afterMiddlewares (state_after ops ctx) = afterMiddlewares ctx ++ after_args ops.
Proof.
  revert ctx. induction ops as [|op ops IH]; intros ctx.
  - simpl. by rewrite app_nil_r.
  - unfold state_after in *. simpl. rewrite IH, exec_op_queue.
    rewrite <- app_assoc. f_equal. by destruct op.
Qed.

Lemma after_args_afters (fs : list MiddlewareFunction) :
  after_args (OpAfter <$> fs) = fs.
Proof. induction fs as [|f fs IH]; [reflexivity|]. simpl. by f_equal. Qed.


(** C3. Path normalisation.  Without strict routing, the path of the context
    is the request pathname without its final slash when the pathname is not
    the root and ends in a slash, and the pathname itself otherwise (the root
    included); with strict routing it is always the pathname itself, so that
    [/foo/] and [/foo] stay distinct. *)
Theorem path_normalization (req : Request) (config : ZarfConfig) (now : Z) :
  let pathname := url_pathname (URL_new (req_url req)) in
  let ctx := new_AppContext req config now in
  (truthy_flag (strictRouting config) = false ->
     (forall p, pathname = p +:+ "/" -> pathname <> "/" -> path ctx = p)
     /\ (pathname = "/" \/ (forall p, pathname <> p +:+ "/") -> path ctx = pathname))
  /\ (truthy_flag (strictRouting config) = true -> path ctx = pathname).
Proof.
  intros pathname ctx. unfold ctx, new_AppContext. simpl. fold pathname.
  split.
  - intros ->. simpl. split.
    + intros p Hp Hroot.
      destruct (String.eqb_spec pathname "/") as [|_]; [done|].
      assert (Hends : JS.endsWith pathname "/" = true)
        by (apply endsWith_suffix; eauto).
      rewrite Hends, Hp. apply (substring_drop_last p "/").
    + intros [->|Hno]; [reflexivity|].
      destruct (String.eqb_spec pathname "/") as [|_]; [done|].
      destruct (JS.endsWith pathname "/") eqn:Hends; [|reflexivity].
      apply endsWith_suffix in Hends as [p Hp]. by destruct (Hno p).
  - by intros ->.
Qed.

(** C9. The method of the context is the lower-case form of the request
    method (['GET'] gives ['get']), and no call on the context changes it. *)
Theorem method_lowercase (req : Request) (config : ZarfConfig) (now : Z) :
  let ctx := new_AppContext req config now in
  method ctx = JS.toLowerCase (req_method req)
  /\ JS.toLowerCase (method ctx) = method ctx
  /\ (forall ops, method (state_after ops ctx) = JS.toLowerCase (req_method req))
  /\ (req_method req = "GET" -> method ctx = "get").
Proof.
  intros ctx. repeat split.
  - apply toLowerCase_idemp.
  - intros ops. apply state_after_method.
  - unfold ctx. simpl. by intros ->.
Qed.

(** C7. The queue of dynamic after-middleware is an ordered list: after the
    calls [after(f1)], ..., [after(fn)] on a fresh context [afterMiddlewares]
    is [[f1; ...; fn]]; a call of [after] appends its argument, every other
    call leaves the queue as it is, and so the queue after any series of calls
    is the arguments of its [after] calls, in call order. *)
Theorem after_queue_ordered (req : Request) (config : ZarfConfig) (now : Z)
    (fs : list MiddlewareFunction) :
  afterMiddlewares (state_after (OpAfter <$> fs) (new_AppContext req config now)) = fs
  /\ (forall op ctx,
        afterMiddlewares (snd (exec_op op ctx))
        = afterMiddlewares ctx ++ match op with OpAfter func => [func] | _ => [] end)
  /\ (forall ops ctx,
        afterMiddlewares (state_after ops ctx) = afterMiddlewares ctx ++ after_args ops).
Proof.
  split; [|split].
  - rewrite state_after_queue. simpl. apply after_args_afters.
  - apply exec_op_queue.
  - apply state_after_queue.
Qed.

(** C8. On a context whose request method is ['HEAD'], [send(body)] drops the
    body and its arguments and returns what [head()] returns, the response
    built from the status, status text and headers of the response in
    progress alone. *)
Theorem send_on_head_request (ctx : AppContext) (b : JSONValue) (args : ResponseInit) :
  req_method (_request ctx) = "HEAD" ->
  send b args ctx = head init_empty ctx
  /\ send b args ctx = response_head (getResponseInit ctx)
  /\ getResponseInit ctx
     = match _response ctx with
       | Some r => {| init_headers := Some (resp_headers r);
                      init_status := Some (resp_status r);
                      init_statusText := Some (resp_statusText r) |}
       | None => init_empty
       end.
Proof.
  intros Hm. unfold send, head. rewrite Hm. simpl.
  by rewrite spread_empty_r.
Qed.

Lemma Headers_get_set (h : Headers) (k v : string) :
  Headers_get (Headers_set h k v) k = Some (normalize_value v).
Proof. unfold Headers_get, Headers_set. apply lookup_insert_eq. Qed.

Lemma Headers_set_set (h : Headers) (k v w : string) :
  Headers_set (Headers_set h k v) k w = Headers_set h k w.
Proof. unfold Headers_set. apply insert_insert_eq. Qed.

(** *** Values that normalisation leaves alone *)

Lemma strip_leading_length (s : string) :
  (String.length (strip_leading s) <= String.length s)%nat.
Proof.
  induction s as [|c s IH]; [done|]. simpl.
  destruct (is_http_whitespace c); simpl; lia.
Qed.

Lemma strip_trailing_length (s : string) :
  (String.length (strip_trailing s) <= String.length s)%nat.
Proof.
  induction s as [|c s IH]; [done|]. simpl.
  destruct (strip_trailing s) as [|d t]; simpl in *.
  - destruct (is_http_whitespace c); simpl; lia.
  - lia.
Qed.

Lemma strip_leading_fixed (s : string) :
  strip_leading s = s <->
  match s with
  | EmptyString => True
  | String c _ => is_http_whitespace c = false
  end.
Proof.
  destruct s as [|c s]; [done|]. simpl.
  destruct (is_http_whitespace c) eqn:Hc; [|done]. split; [|done].
  intros H. pose proof (strip_leading_length s) as Hlen.
  rewrite H in Hlen. simpl in Hlen. lia.
Qed.

Lemma normalize_fixed (s : string) :
  normalize_value s = s -> strip_leading s = s /\ strip_trailing s = s.
Proof.
  unfold normalize_value. intros H.
  assert (Hl : strip_leading s = s).
  { apply strip_leading_fixed. destruct s as [|c s]; [done|].
    destruct (is_http_whitespace c) eqn:Hc; [|done]. simpl in H. rewrite Hc in H.
    pose proof (strip_trailing_length (strip_leading s)) as H1.
    pose proof (strip_leading_length s) as H2.
    rewrite H in H1. simpl in H1. lia. }
  split; [done|]. by rewrite Hl in H.
Qed.

Lemma strip_leading_sep (x t : string) :
  strip_leading x = x -> strip_leading (x +:+ String "," t) = x +:+ String "," t.
Proof.
  intros Hx. apply strip_leading_fixed. apply strip_leading_fixed in Hx.
  by destruct x.
Qed.

Lemma strip_trailing_app (x t : string) :
  strip_trailing t = t -> t <> "" -> strip_trailing (x +:+ t) = x +:+ t.
Proof.
  intros Ht Hne. induction x as [|c x IH]; [done|].
  rewrite append_cons. simpl. rewrite IH.
  destruct (x +:+ t) eqn:Hxt; [|done].
  destruct x; [|discriminate Hxt]. by destruct t.
Qed.

Lemma strip_trailing_sep (y : string) :
  strip_trailing y = y -> strip_trailing (String "," y) = String "," y.
Proof. intros Hy. simpl. rewrite Hy. by destruct y. Qed.

Lemma normalize_join (l : list string) :
  Forall (fun e => normalize_value e = e) l ->
  normalize_value (JS.join "," l) = JS.join "," l.
Proof.
  induction l as [|x l IH]; [done|]. intros Hall.
  inversion Hall as [|? ? Hx Hl]; subst.
  destruct l as [|y l]; [done|].
  change (JS.join "," (x :: y :: l)) with (x +:+ String "," (JS.join "," (y :: l))).
  apply normalize_fixed in Hx as [Hx1 Hx2].
  destruct (normalize_fixed _ (IH Hl)) as [_ Hj].
  unfold normalize_value. rewrite strip_leading_sep by done.
  apply strip_trailing_app; [by apply strip_trailing_sep|done].
Qed.

(** The value [setVary] hands to the header bag, from the current value of
    the header. *)
Definition vary_value (current : option string) (headerVals : list string) : string :=
  let c := match current with
           | Some v => if String.eqb v "" then "" else v
           | None => ""
           end in
  JS.join "," (JS.Set_of (JS.split "," c ++ headerVals)).

Lemma setVary_unfold (x : string) (xs : list string) (r : Response) (ctx : AppContext) :
  _response ctx = Some r ->
  setVary (x :: xs) ctx
  = with_response
      (Some (response_set_header "Vary"
               (vary_value (Headers_get (resp_headers r) "Vary") (x :: xs)) r))
      ctx.
Proof. intros Hr. unfold setVary. by rewrite Hr. Qed.

Lemma vary_value_default (current : option string) (headerVals : list string) :
  vary_value current headerVals
  = JS.join "," (JS.Set_of (JS.split "," (default "" current) ++ headerVals)).
Proof.
  unfold vary_value. cbv zeta.
  destruct current as [v|]; simpl; by rewrite ?or_empty_id.
Qed.

Lemma vary_value_split (current : option string) (headerVals : list string) :
  Forall (fun v => JS.free_of "," v = true) headerVals ->
  JS.split "," (vary_value current headerVals)
  = JS.Set_of (JS.split "," (default "" current) ++ headerVals).
Proof.
  intros Hfree. rewrite vary_value_default. apply split_join.
  - apply Set_of_not_nil. intros Hnil. apply app_eq_nil in Hnil as [Hnil _].
    by apply split_not_nil in Hnil.
  - apply Set_of_Forall, Forall_app. split; [apply split_free|done].
Qed.

Lemma vary_value_normal (current : option string) (headerVals : list string) :
  Forall (fun e => normalize_value e = e) (JS.split "," (default "" current)) ->
  Forall (fun v => normalize_value v = v) headerVals ->
  normalize_value (vary_value current headerVals) = vary_value current headerVals.
Proof.
  intros Hcur Hvals. rewrite vary_value_default.
  apply normalize_join, Set_of_Forall, Forall_app. by split.
Qed.

Lemma vary_value_stable (current : option string) (headerVals : list string) :
  Forall (fun v => JS.free_of "," v = true) headerVals ->
  vary_value (Some (vary_value current headerVals)) headerVals
  = vary_value current headerVals.
Proof.
  intros Hfree. rewrite (vary_value_default (Some _)). simpl.
  rewrite vary_value_split by done.
  rewrite Set_of_again; [by rewrite vary_value_default|].
  intros x Hx. apply elem_of_app. by right.
Qed.

(** *** What the header bag leaves of a joined value *)

Lemma strip_trailing_join (l : list string) :
  Forall (fun e => strip_trailing e = e) l ->
  strip_trailing (JS.join "," l) = JS.join "," l.
Proof.
  induction l as [|x l IH]; [done|]. intros Hall.
  inversion Hall as [|? ? Hx Hl]; subst.
  destruct l as [|y l]; [done|].
  change (JS.join "," (x :: y :: l)) with (x +:+ String "," (JS.join "," (y :: l))).
  apply strip_trailing_app; [apply strip_trailing_sep; by apply IH|done].
Qed.

Lemma strip_leading_join (x : string) (l : list string) :
  strip_leading x = x ->
  strip_leading (JS.join "," (x :: l)) = JS.join "," (x :: l).
Proof.
  intros Hx. destruct l as [|y l]; [done|].
  change (JS.join "," (x :: y :: l)) with (x +:+ String "," (JS.join "," (y :: l))).
  by apply strip_leading_sep.
Qed.

(** The first entry of a value that does not begin with whitespace does not
    begin with whitespace. *)
Lemma split_first_leading (s x : string) (rest : list string) :
  strip_leading s = s -> JS.split "," s = x :: rest -> strip_leading x = x.
Proof.
  intros Hs Hsplit. destruct s as [|a s].
  - by injection Hsplit as <- _.
  - apply strip_leading_fixed in Hs. rewrite split_unfold in Hsplit.
    destruct (Ascii.eqb a ","); [by injection Hsplit as <- _|].
    destruct (JS.split "," s) as [|w ws]; injection Hsplit as <- _;
      by apply strip_leading_fixed.
Qed.

(** A [Set] begins with the first element it was given. *)
Lemma Set_fold_first (l : list string) :
  forall (x : string) (acc : list string),
    exists tl, fold_left JS.Set_add l (x :: acc) = x :: tl.
Proof.
  induction l as [|y l IH]; intros x acc; [by exists acc|]. simpl.
  unfold JS.Set_add at 2. destruct (decide (y ∈ x :: acc)); [apply IH|].
  simpl. apply IH.
Qed.

Lemma Set_of_first (x : string) (l : list string) :
  exists tl, JS.Set_of (x :: l) = x :: tl.
Proof. unfold JS.Set_of. simpl. apply (Set_fold_first l x []). Qed.

(** The header bag stores the value of [setVary] as it is handed over, when
    the value it replaces did not begin with whitespace and neither an entry
    of it nor a value passed ends in whitespace. *)
Lemma vary_value_kept (current : option string) (headerVals : list string) :
  strip_leading (default "" current) = default "" current ->
  Forall (fun e => strip_trailing e = e) (JS.split "," (default "" current)) ->
  Forall (fun v => strip_trailing v = v) headerVals ->
  normalize_value (vary_value current headerVals) = vary_value current headerVals.
Proof.
  intros Hlead Hcur Hvals. rewrite vary_value_default. unfold normalize_value.
  pose proof (split_not_nil "," (default "" current)) as Hne.
  destruct (JS.split "," (default "" current)) as [|p ps] eqn:Hsplit; [done|].
  pose proof (split_first_leading _ _ _ Hlead Hsplit) as Hp.
  assert (Hall : Forall (fun e => strip_trailing e = e)
                        (JS.Set_of ((p :: ps) ++ headerVals)))
    by (apply Set_of_Forall, Forall_app; by split).
  simpl in *. destruct (Set_of_first p (ps ++ headerVals)) as [tl Htl].
  rewrite Htl in *. rewrite strip_leading_join by done.
  by apply strip_trailing_join.
Qed.

(** C10, as amended.  For header values that hold no comma and do not end in
    whitespace, on a response whose [Vary] header does not begin with
    whitespace and has no entry that ends in whitespace, [setVary] is
    idempotent and leaves no duplicate: a second call with the same values
    leaves the context, and so the [Vary] header, as the first call left it;
    after a call with at least one value, the entries of the header are
    pairwise distinct and hold every value passed.  Whitespace after a comma
    of the header, and before a value, is allowed. *)
Theorem setVary_idempotent (headerVals : list string) (ctx : AppContext) :
  Forall (fun v => JS.free_of "," v = true /\ strip_trailing v = v) headerVals ->
  (forall r, _response ctx = Some r ->
     strip_leading (default "" (Headers_get (resp_headers r) "Vary"))
     = default "" (Headers_get (resp_headers r) "Vary")
     /\ Forall (fun e => strip_trailing e = e)
               (JS.split "," (default "" (Headers_get (resp_headers r) "Vary")))) ->
  setVary headerVals (setVary headerVals ctx) = setVary headerVals ctx
  /\ (headerVals <> [] ->
      forall r, _response ctx = Some r ->
      exists r' v,
        _response (setVary headerVals ctx) = Some r'
        /\ Headers_get (resp_headers r') "Vary" = Some v
        /\ NoDup (JS.split "," v)
        /\ (forall x, x ∈ headerVals -> x ∈ JS.split "," v)).
Proof.
  intros Hvals Hcur.
  assert (Hfree : Forall (fun v => JS.free_of "," v = true) headerVals)
    by (eapply Forall_impl; [exact Hvals|]; by intros v [? _]).
  assert (Htrail : Forall (fun v => strip_trailing v = v) headerVals)
    by (eapply Forall_impl; [exact Hvals|]; by intros v [_ ?]).
  destruct headerVals as [|x xs]; [by split|].
  destruct (_response ctx) as [r|] eqn:Hr.
  - destruct (Hcur r eq_refl) as [Hlead Hentries].
    pose proof (vary_value_kept _ _ Hlead Hentries Htrail) as Hn.
    rewrite (setVary_unfold x xs r ctx Hr). split.
    + erewrite setVary_unfold by reflexivity.
      unfold with_response, response_set_header. simpl.
      rewrite Headers_get_set, Headers_set_set, Hn.
      by rewrite vary_value_stable.
    + intros _ r0 [= <-]. eexists _, _. split; [reflexivity|]. simpl.
      split; [apply Headers_get_set|]. rewrite Hn.
      rewrite vary_value_split by done. split; [apply Set_of_NoDup|].
      intros y Hy. apply Set_fold_elem. right. apply elem_of_app. by right.
  - split.
    + unfold setVary. rewrite Hr. simpl. by rewrite Hr.
    + by intros _ r0 [=].
Qed.

(** Without a body, or with a falsy one, the signal carries the status text
    of the table in its place. *)
Lemma halt_body_fallback (ctx : AppContext) (statusCode : Z) (b : option JSONValue) :
  match b with
  | Some v => truthy v = false
  | None => True
  end ->
  halt_body (halt_payload statusCode b ctx) = JStr (HTTP_STATUS_CODES statusCode).
Proof. destruct b as [v|]; simpl; [by intros ->|done]. Qed.

(** C2, as amended.  For every status code and every truthy body, [halt]
    never returns: it throws a halt signal, which is not an error value, that
    carries the status code, the body as it was passed, and the headers and
    status text of the response in progress; whatever a handler or middleware
    would have done after the call is not done, and the response the
    dispatcher builds from the signal has that status, that body and those
    headers. *)
Theorem halt_carries_payload (ctx : AppContext) (statusCode : Z) (b : JSONValue)
    (rest : list ContextOp) (e : ScriptEnd) :
  truthy b = true ->
  exists h : ZarfHaltError,
    (forall A : Type, halt (A := A) statusCode (Some b) ctx = Throw (ThrownHalt h))
    /\ exec_op (OpHalt statusCode (Some b)) ctx = (Throw (ThrownHalt h), ctx)
    /\ halt_statusCode h = statusCode
    /\ halt_body h = b
    /\ init_status (halt_init h) = Some statusCode
    /\ init_headers (halt_init h) = resp_headers <$> _response ctx
    /\ init_statusText (halt_init h) = resp_statusText <$> _response ctx
    /\ run_script (mkScript (OpHalt statusCode (Some b) :: rest) e) ctx = (Halted h, ctx)
    /\ resp_status (halt_response h) = statusCode
    /\ resp_body (halt_response h) = Some b
    /\ resp_headers (halt_response h) = default ∅ (resp_headers <$> _response ctx).
Proof.
  intros Hb. exists (halt_payload statusCode (Some b) ctx).
  assert (Hbody : halt_body (halt_payload statusCode (Some b) ctx) = b)
    by (simpl; by rewrite Hb).
  repeat split; try done.
  - unfold halt_payload, getResponseInit. simpl. destruct (_response ctx); reflexivity.
  - unfold halt_payload, getResponseInit. simpl. destruct (_response ctx); reflexivity.
  - unfold halt_response. cbn [resp_body]. by rewrite Hbody.
  - unfold halt_response, halt_payload, getResponseInit.
    destruct (_response ctx); reflexivity.
Qed.

(** ** The structural match *)

Lemma wildcard_run_Some (k : list string -> option (gmap string string))
    (n : string) (run rest : list string) (m : gmap string string) :
  Pattern.wildcard_run k n run rest = Some m ->
  exists taken left m',
    rest = taken ++ left /\ k left = Some m'
    /\ m = <[n := JS.join "/" (run ++ taken)]> m'.
Proof.
  revert run. induction rest as [|s rest IH]; intros run; simpl.
  - destruct (k []) as [m'|] eqn:Hk; [|done].
    intros [= <-]. exists [], [], m'. by rewrite (app_nil_r run).
  - destruct (k (s :: rest)) as [m'|] eqn:Hk.
    + intros [= <-]. exists [], (s :: rest), m'. by rewrite (app_nil_r run).
    + intros H. destruct (IH _ H) as (taken & left & m' & -> & Hleft & ->).
      exists (s :: taken), left, m'. by rewrite <- app_assoc.
Qed.

Lemma wildcard_run_is_Some (k : list string -> option (gmap string string))
    (n : string) (run taken left : list string) :
  is_Some (k left) -> is_Some (Pattern.wildcard_run k n run (taken ++ left)).
Proof.
  revert run. induction taken as [|s taken IH]; intros run Hk.
  - destruct Hk as [m Hk]. destruct left; simpl; by rewrite Hk.
  - simpl. destruct (k (s :: taken ++ left)); [done|]. by apply IH.
Qed.


Lemma name_count_cons (n : string) (s : Pattern.Segment) (segs : list Pattern.Segment) :
  Pattern.name_count n (s :: segs)
  = ((if decide (Pattern.seg_name s = Some n) then 1 else 0)
     + Pattern.name_count n segs)%nat.
Proof.
  unfold Pattern.name_count. rewrite filter_cons. by destruct (decide _).
Qed.



Lemma compile_names_distinct (p : string) (pat : list Pattern.Segment) (n : string) :
  Pattern.compile p = Some pat ->
  Pattern.Wildcard n ∈ pat \/ Pattern.OptionalParam n ∈ pat ->
  Pattern.name_count n pat = 1%nat.
Proof.
  unfold Pattern.compile. cbv zeta.
  destruct (Pattern.names_distinct _ && Pattern.optional_last _) eqn:Hok; [|done].
  intros [= <-]. apply andb_prop in Hok as [Hd _].
  unfold Pattern.names_distinct in Hd. rewrite forallb_forall in Hd.
  intros [Hin|Hin]; apply list_elem_of_In, Hd in Hin; by apply Nat.eqb_eq in Hin.
Qed.


Lemma name_count_app (n : string) (l1 l2 : list Pattern.Segment) :
  Pattern.name_count n (l1 ++ l2)
  = (Pattern.name_count n l1 + Pattern.name_count n l2)%nat.
Proof. unfold Pattern.name_count. by rewrite filter_app, length_app. Qed.

Lemma name_count_zero (n : string) (segs : list Pattern.Segment) (seg : Pattern.Segment) :
  Pattern.name_count n segs = 0%nat -> seg ∈ segs -> Pattern.seg_name seg <> Some n.
Proof.
  induction segs as [|s0 segs IH]; [by intros _ ?%elem_of_nil|].
  rewrite name_count_cons, elem_of_cons. intros Hc [->|Hin].
  - destruct (decide _); [simpl in Hc; lia|done].
  - apply IH; [|done]. destruct (decide _); simpl in Hc; lia.
Qed.

Lemma optional_last_prefix (pat : list Pattern.Segment) (last : Pattern.Segment) (x : string) :
  Pattern.optional_last (pat ++ [last]) = true -> Pattern.OptionalParam x ∉ pat.
Proof.
  induction pat as [|seg pat IH]; [intros _ ?%elem_of_nil; done|].
  intros Hol Hin. apply elem_of_cons in Hin as [<-|Hin].
  - simpl in Hol. by destruct (pat ++ [last]) eqn:Hl; [destruct pat|].
  - apply IH; [|done]. simpl in Hol.
    destruct (pat ++ [last]) eqn:Hl; [by destruct pat|].
    by destruct seg.
Qed.

(** A match of a pattern extends to the pattern followed by an optional
    segment, on the same path and on the path with one more segment. *)
Lemma optional_tail_matches (pat : list Pattern.Segment) (n : string) :
  forall (segs : list string) (s : string),
    is_Some (Pattern.match_segments pat segs) ->
    is_Some (Pattern.match_segments (pat ++ [Pattern.OptionalParam n]) segs)
    /\ is_Some (Pattern.match_segments (pat ++ [Pattern.OptionalParam n]) (segs ++ [s])).
Proof.
  induction pat as [|seg pat IH]; intros segs s Hm.
  - destruct segs; [|by destruct Hm]. simpl. split; eauto.
  - rewrite <- app_comm_cons. destruct seg as [lit|x|x|x]; simpl in *.
    + destruct segs as [|s0 segs]; [by destruct Hm|]. simpl.
      destruct (String.eqb s0 lit); [by apply IH|by destruct Hm].
    + destruct segs as [|s0 segs]; [by destruct Hm|]. simpl.
      rewrite fmap_is_Some in Hm. rewrite !fmap_is_Some. by apply IH.
    + destruct segs as [|s0 segs]; simpl.
      * rewrite fmap_is_Some. destruct (IH [] s Hm) as [H1 _]. by split.
      * rewrite fmap_is_Some in Hm. rewrite !fmap_is_Some. by apply IH.
    + destruct segs as [|s0 segs]; [by destruct Hm|]. simpl.
      destruct Hm as [m Hm].
      apply wildcard_run_Some in Hm as (taken & left & m' & -> & Hleft & _).
      destruct (IH left s (mk_is_Some _ _ Hleft)) as [H1 H2]. split.
      * by apply wildcard_run_is_Some.
      * rewrite <- app_assoc. by apply wildcard_run_is_Some.
Qed.

(** When the segments before the optional one are static or named with other
    names, the bindings are those of the shorter pattern, with the optional
    name absent or bound to the extra segment. *)
Lemma optional_tail_bindings (pat : list Pattern.Segment) (n : string) :
  Forall (fun seg => match seg with
                     | Pattern.Static _ => True
                     | Pattern.Param x => x <> n
                     | _ => False
                     end) pat ->
  forall (segs : list string) (s : string) (m : gmap string string),
    Pattern.match_segments pat segs = Some m ->
    Pattern.match_segments (pat ++ [Pattern.OptionalParam n]) segs = Some m
    /\ m !! n = None
    /\ Pattern.match_segments (pat ++ [Pattern.OptionalParam n]) (segs ++ [s])
       = Some (<[n := s]> m).
Proof.
  induction 1 as [|seg pat Hseg Hpat IH]; intros segs s m Hm.
  - destruct segs; [|done]. injection Hm as <-. simpl. by rewrite lookup_empty.
  - rewrite <- app_comm_cons. destruct seg as [lit|x|x|x]; try done; simpl in *.
    + destruct segs as [|s0 segs]; [done|]. simpl.
      destruct (String.eqb s0 lit); [by apply IH|done].
    + destruct segs as [|s0 segs]; [done|]. simpl.
      destruct (Pattern.match_segments pat segs) as [m'|] eqn:Hm'; [|done].
      injection Hm as <-. destruct (IH segs s m' Hm') as (Ha & Hn & Hb).
      rewrite Ha, Hb. simpl. split; [done|].
      split; [by rewrite lookup_insert_ne|].
      by rewrite insert_insert_ne.
Qed.

(** C6. A pattern that ends in an optional named segment matches the path
    with and without that final segment; [/user/:name?] matches [/user] with
    [name] absent and [/user/a] with [name] bound to [a]. *)
Theorem optional_segment_matches_both :
  (forall p pat n segs s,
      Pattern.compile p = Some (pat ++ [Pattern.OptionalParam n]) ->
      is_Some (Pattern.match_segments pat segs) ->
      is_Some (Pattern.match_segments (pat ++ [Pattern.OptionalParam n]) segs)
      /\ is_Some (Pattern.match_segments (pat ++ [Pattern.OptionalParam n])
                                         (segs ++ [s])))
  /\ (forall p pat n segs s m,
        Pattern.compile p = Some (pat ++ [Pattern.OptionalParam n]) ->
        (forall x, Pattern.Wildcard x ∉ pat) ->
        Pattern.match_segments pat segs = Some m ->
        Pattern.match_segments (pat ++ [Pattern.OptionalParam n]) segs = Some m
        /\ m !! n = None
        /\ Pattern.match_segments (pat ++ [Pattern.OptionalParam n]) (segs ++ [s])
           = Some (<[n := s]> m))
  /\ (forall h : Handler,
        exists reg r,
          register [] "get" "/user/:name?" h [] [] = Some reg
          /\ route_segments r = [Pattern.Static "user"; Pattern.OptionalParam "name"]
          /\ route_handler r = h
          /\ (exists params,
                match_route reg "get" "/user" = Some (r, params)
                /\ params !! "name" = None)
          /\ match_route reg "get" "/user/a" = Some (r, {[ "name" := "a" ]})).
Proof.
  split; [|split].
  - intros p pat n segs s _. apply optional_tail_matches.
  - intros p pat n segs s m Hc Hnw Hm. apply optional_tail_bindings; [|done].
    pose proof (compile_names_distinct p _ n Hc) as Hcount.
    rewrite name_count_app in Hcount.
    assert (Hzero : Pattern.name_count n pat = 0%nat).
    { assert (H1 : (Pattern.name_count n pat
                    + Pattern.name_count n [Pattern.OptionalParam n] = 1)%nat).
      { apply Hcount. right. apply elem_of_app. right. left. }
      rewrite name_count_cons in H1. simpl in H1.
      rewrite decide_True in H1 by done. lia. }
    assert (Hol : Pattern.optional_last (pat ++ [Pattern.OptionalParam n]) = true).
    { unfold Pattern.compile in Hc. cbv zeta in Hc.
      destruct (Pattern.names_distinct _ && Pattern.optional_last _) eqn:Hok; [|done].
      injection Hc as Hc. rewrite Hc in Hok. by apply andb_prop in Hok as [_ ?]. }
    apply Forall_forall. intros seg Hin.
    pose proof (name_count_zero n pat seg Hzero Hin) as Hname.
    destruct seg as [lit|x|x|x]; simpl in *.
    + done.
    + congruence.
    + by apply (optional_last_prefix pat _ x Hol).
    + by apply (Hnw x).
  - intros h.
    set (segs := [Pattern.Static "user"; Pattern.OptionalParam "name"]).
    set (r := mkRoute "get" segs (Pattern.param_names segs) h [] [] 0).
    exists [r], r. split; [vm_compute; reflexivity|].
    split; [reflexivity|]. split; [reflexivity|].
    split; [|vm_compute; reflexivity].
    exists ∅. split; vm_compute; reflexivity.
Qed.

(** ** The Matcher *)

Lemma first_match_registration_order (m : string) (segs : list string)
    (reg : list CompiledRoute) :
  match first_match (candidates reg m) segs with
  | Some (r, params) =>
      exists earlier later,
        reg = earlier ++ r :: later
        /\ route_method r = m
        /\ Pattern.match_segments (route_segments r) segs = Some params
        /\ (forall r', r' ∈ earlier -> route_method r' = m ->
                       Pattern.match_segments (route_segments r') segs = None)
  | None =>
      forall r', r' ∈ reg -> route_method r' = m ->
                 Pattern.match_segments (route_segments r') segs = None
  end.
Proof.
  unfold candidates. induction reg as [|r0 reg IH].
  - simpl. by intros r' ?%elem_of_nil.
  - rewrite filter_cons. destruct (decide (route_method r0 = m)) as [Hm|Hm].
    + simpl. destruct (Pattern.match_segments (route_segments r0) segs)
        as [params|] eqn:H0.
      * exists [], reg. repeat split; try done. by intros r' ?%elem_of_nil.
      * destruct (first_match _ segs) as [[r params]|].
        -- destruct IH as (earlier & later & -> & Hr & Hp & Hno).
           exists (r0 :: earlier), later. repeat split; try done.
           intros r' [->|Hin]%elem_of_cons Hr'; [done|]. by apply Hno.
        -- intros r' [->|Hin]%elem_of_cons Hr'; [done|]. by apply IH.
    + destruct (first_match _ segs) as [[r params]|].
      * destruct IH as (earlier & later & -> & Hr & Hp & Hno).
        exists (r0 :: earlier), later. repeat split; try done.
        intros r' [->|Hin]%elem_of_cons Hr'; [done|]. by apply Hno.
      * intros r' [->|Hin]%elem_of_cons Hr'; [done|]. by apply IH.
Qed.

(** C1. The Matcher returns the first route, in registration order, whose
    method is the requested one and whose whole pattern matches the path:
    every route registered before it for that method fails to match, and
    NOT_FOUND means that no route of that method matches.  With [/a/*rest]
    registered before [/a/b], a request to [/a/b] is given to the wildcard
    route, the first one, and not to the second. *)
Theorem first_registered_match_wins :
  (forall reg m p,
      match match_route reg m p with
      | Some (r, params) =>
          exists earlier later,
            reg = earlier ++ r :: later
            /\ route_method r = m
            /\ Pattern.match_segments (route_segments r) (Pattern.segments_of p)
               = Some params
            /\ (forall r', r' ∈ earlier -> route_method r' = m ->
                   Pattern.match_segments (route_segments r') (Pattern.segments_of p)
                   = None)
      | None =>
          forall r', r' ∈ reg -> route_method r' = m ->
            Pattern.match_segments (route_segments r') (Pattern.segments_of p) = None
      end)
  /\ (forall h1 h2 : Handler,
        exists reg1 reg2 first second,
          register [] "get" "/a/*rest" h1 [] [] = Some reg1
          /\ register reg1 "get" "/a/b" h2 [] [] = Some reg2
          /\ reg2 = [first; second]
          /\ route_handler first = h1 /\ route_index first = 0%nat
          /\ route_handler second = h2 /\ route_index second = 1%nat
          /\ Pattern.match_segments (route_segments second)
                                    (Pattern.segments_of "/a/b") = Some ∅
          /\ match_route reg2 "get" "/a/b" = Some (first, {[ "rest" := "b" ]})).
Proof.
  split.
  - intros reg m p. apply first_match_registration_order.
  - intros h1 h2.
    set (segs1 := [Pattern.Static "a"; Pattern.Wildcard "rest"]).
    set (segs2 := [Pattern.Static "a"; Pattern.Static "b"]).
    set (r1 := mkRoute "get" segs1 (Pattern.param_names segs1) h1 [] [] 0).
    set (r2 := mkRoute "get" segs2 (Pattern.param_names segs2) h2 [] [] 1).
    exists [r1], [r1; r2], r1, r2. repeat split; vm_compute; reflexivity.
Qed.

(** ** The Dispatcher *)
















End Zarf.

(** * The model at work

    The development is run on a concrete runtime: function values are names,
    and what a named function does is given by a table. *)

Definition demo_request (m p : string) : Request :=
  mkRequest m ("http://localhost:3000" +:+ p) ∅.

Definition demo_config : ZarfConfig := mkConfig None None.

Definition demo_strict : ZarfConfig := mkConfig (Some true) None.

Definition demo_ctx (m p : string) : AppContext (RT := Demo.runtime) :=
  new_AppContext (RT := Demo.runtime) (demo_request m p) demo_config 0.

Definition enqueue (f : string) : ContextOp (RT := Demo.runtime) :=
  OpAfter (RT := Demo.runtime) f.

Definition throw_error (e : string) : ScriptEnd (RT := Demo.runtime) :=
  ThrowError (RT := Demo.runtime) e.

(** What the named middleware of the examples do.  [auth] enqueues an access
    log and halts with 401; [boom] enqueues the same log and throws; [audit]
    enqueues [chained-log] and passes control on; [chained-log], when it is
    run, enqueues [late-log]; [timer] calls [next()] and enqueues
    [timing-log] once the rest of the chain has returned; [seal] calls
    [next()] and halts with 401 once it has returned; any other middleware
    passes control on. *)
Definition demo_middleware (f : string) (ctx : AppContext (RT := Demo.runtime))
  : Script (RT := Demo.runtime) :=
  if String.eqb f "auth"
  then mkScript [enqueue "access-log"; OpHalt 401 None; enqueue "late"]
                (CallNext pass_on)
  else if String.eqb f "boom"
  then mkScript [enqueue "access-log"] (throw_error "boom")
  else if String.eqb f "audit"
  then mkScript [enqueue "chained-log"] (CallNext pass_on)
  else if String.eqb f "chained-log"
  then mkScript [enqueue "late-log"] (Return None)
  else if String.eqb f "timer"
  then mkScript [] (CallNext (fun r _ => mkTail [enqueue "timing-log"] (TailReturn r)))
  else if String.eqb f "seal"
  then mkScript [] (CallNext (fun r _ => mkTail [OpHalt 401 None] (TailReturn r)))
  else mkScript [] (CallNext pass_on).

(** A handler enqueues a metrics hook and answers with its own name. *)
Definition demo_handler (h : string) (ctx : AppContext (RT := Demo.runtime))
    (params : gmap string string) : Script (RT := Demo.runtime) :=
  mkScript [enqueue "metrics"]
           (Return (Some (json (RT := Demo.runtime) (JStr h) init_empty ctx))).

Definition demo_route (p : string) (h : string) (before : list string)
  : list (CompiledRoute (RT := Demo.runtime) (Handler := string)) :=
  default [] (register (RT := Demo.runtime) [] "get" p h before []).

Definition demo_dispatch (before : list string) (p : string)
  : Dispatched (RT := Demo.runtime) (Handler := string) :=
  dispatch (RT := Demo.runtime) demo_middleware demo_handler
           (demo_route "/api/list" "list" before) (demo_request "GET" p) demo_config 0.

(** The value of the [Vary] header of the response in progress. *)
Definition vary_of (ctx : AppContext (RT := Demo.runtime)) : option string :=
  match _response ctx with
  | Some r => Headers_get (resp_headers r) "Vary"
  | None => None
  end.

(** A response whose [Vary] header is written the usual way, with a space
    after the comma. *)
Definition demo_vary_ctx : AppContext (RT := Demo.runtime) :=
  setHeader (RT := Demo.runtime) "Vary" "Accept, Origin" (demo_ctx "GET" "/hello").

(** The two routes of the precedence example, in registration order. *)
Definition demo_wildcard_first
  : list (CompiledRoute (RT := Demo.runtime) (Handler := string)) :=
  default []
    (register (RT := Demo.runtime) [] "get" "/a/*rest" "wildcard" [] []
     ≫= fun reg => register reg "get" "/a/b" "exact" [] []).

(** ** Path and method of a fresh context *)

Lemma path_normalization_witness :
  path (demo_ctx "GET" "/foo/") = "/foo"
  /\ path (demo_ctx "GET" "/") = "/"
  /\ path (new_AppContext (RT := Demo.runtime) (demo_request "GET" "/foo/") demo_strict 0)
     = "/foo/".
Proof.
  pose proof (path_normalization (RT := Demo.runtime)
                (demo_request "GET" "/foo/") demo_config 0) as H1.
  pose proof (path_normalization (RT := Demo.runtime)
                (demo_request "GET" "/") demo_config 0) as H2.
  pose proof (path_normalization (RT := Demo.runtime)
                (demo_request "GET" "/foo/") demo_strict 0) as H3.
  cbv zeta in H1, H2, H3.
  destruct H1 as [H1 _]. destruct H2 as [H2 _]. destruct H3 as [_ H3].
  split; [|split].
  - apply (proj1 (H1 eq_refl) "/foo"); [reflexivity|].
    intros E. vm_compute in E. discriminate E.
  - apply (proj2 (H2 eq_refl)). left. reflexivity.
  - apply (H3 eq_refl).
Defined.

Lemma method_lowercase_witness :
  method (demo_ctx "GET" "/hello") = "get".
Proof.
  pose proof (method_lowercase (RT := Demo.runtime)
                (demo_request "GET" "/hello") demo_config 0) as H.
  cbv zeta in H. destruct H as (_ & _ & _ & H). apply H. reflexivity.
Defined.

(** ** The queue and the response helpers *)

Example after_queue_example :
  afterMiddlewares
    (state_after [enqueue "f1"; OpSetStatus 201; enqueue "f2";
                  OpHalt 401 None; OpSetVary ["Accept"]; enqueue "f3"]
                 (demo_ctx "GET" "/hello"))
  = ["f1"; "f2"; "f3"].
Proof. vm_compute. reflexivity. Qed.

Lemma send_on_head_request_witness :
  send (RT := Demo.runtime) (JStr "dropped") init_empty (demo_ctx "HEAD" "/hello")
  = head (RT := Demo.runtime) init_empty (demo_ctx "HEAD" "/hello").
Proof.
  apply (proj1 (send_on_head_request (RT := Demo.runtime)
                  (demo_ctx "HEAD" "/hello") (JStr "dropped") init_empty eq_refl)).
Defined.

Example send_on_get_request_keeps_body :
  resp_body (send (RT := Demo.runtime) (JStr "kept") init_empty (demo_ctx "GET" "/hello"))
  = Some (JStr "kept").
Proof. reflexivity. Qed.

(** ** [setVary] *)

Lemma setVary_idempotent_witness :
  setVary (RT := Demo.runtime) ["Accept"; "Accept-Encoding"]
    (setVary (RT := Demo.runtime) ["Accept"; "Accept-Encoding"] demo_vary_ctx)
  = setVary (RT := Demo.runtime) ["Accept"; "Accept-Encoding"] demo_vary_ctx.
Proof.
  assert (Hvals : Forall (fun v => JS.free_of "," v = true /\ strip_trailing v = v)
                         ["Accept"; "Accept-Encoding"])
    by (repeat constructor).
  assert (Hcur : forall r, _response demo_vary_ctx = Some r ->
                   strip_leading (default "" (Headers_get (resp_headers r) "Vary"))
                   = default "" (Headers_get (resp_headers r) "Vary")
                   /\ Forall (fun e => strip_trailing e = e)
                        (JS.split "," (default "" (Headers_get (resp_headers r) "Vary")))).
  { intros r Hr. injection Hr as <-. split; [reflexivity|].
    vm_compute. repeat constructor. }
  apply (proj1 (setVary_idempotent (RT := Demo.runtime) ["Accept"; "Accept-Encoding"]
                  demo_vary_ctx Hvals Hcur)).
Defined.

Example setVary_on_spaced_header :
  vary_of demo_vary_ctx = Some "Accept, Origin"
  /\ vary_of (setVary (RT := Demo.runtime) ["Accept"; "Accept-Encoding"] demo_vary_ctx)
     = Some "Accept, Origin,Accept-Encoding"
  /\ vary_of (setVary (RT := Demo.runtime) ["Accept"; "Accept-Encoding"]
               (setVary (RT := Demo.runtime) ["Accept"; "Accept-Encoding"]
                  demo_vary_ctx))
     = Some "Accept, Origin,Accept-Encoding"
  /\ vary_of (setVary (RT := Demo.runtime) [" Origin"] demo_vary_ctx)
     = Some "Accept, Origin".
Proof. repeat split; vm_compute; reflexivity. Qed.

(** The header bag stores no value that begins with whitespace.  On a
    response put together outside of it, whose [Vary] value does, the first
    call has the leading whitespace stripped and the second then finds the
    first entry changed. *)
Example setVary_on_unstripped_header :
  let r := {| resp_status := 200; resp_statusText := "";
              resp_headers := {[ "vary" := " a,a" ]}; resp_body := None |} in
  let ctx := with_response (RT := Demo.runtime) (Some r) (demo_ctx "GET" "/hello") in
  vary_of (setVary (RT := Demo.runtime) ["a"] ctx) = Some "a,a"
  /\ vary_of (setVary (RT := Demo.runtime) ["a"]
               (setVary (RT := Demo.runtime) ["a"] ctx))
     = Some "a".
Proof. split; vm_compute; reflexivity. Qed.

Example setVary_twice_on_fresh_response :
  vary_of (setVary (RT := Demo.runtime) ["Accept"; "Origin"] (demo_ctx "GET" "/hello"))
  = Some ",Accept,Origin"
  /\ vary_of (setVary (RT := Demo.runtime) ["Origin"; "Accept"]
               (setVary (RT := Demo.runtime) ["Accept"; "Origin"]
                  (demo_ctx "GET" "/hello")))
     = Some ",Accept,Origin".
Proof. split; vm_compute; reflexivity. Qed.

(** A second call with the same values changes the header when a value holds
    a comma (the next call splits it), when a value ends in whitespace (the
    header bag strips it, the next call does not find the value), and when
    the header already held a padded duplicate. *)
Lemma setVary_not_idempotent_in_general :
  (vary_of (setVary (RT := Demo.runtime) ["a,b"] (demo_ctx "GET" "/hello"))
   = Some ",a,b"
   /\ vary_of (setVary (RT := Demo.runtime) ["a,b"]
                (setVary (RT := Demo.runtime) ["a,b"] (demo_ctx "GET" "/hello")))
      = Some ",a,b,a,b")
  /\ (vary_of (setVary (RT := Demo.runtime) ["x "] (demo_ctx "GET" "/hello"))
      = Some ",x"
      /\ vary_of (setVary (RT := Demo.runtime) ["x "]
                   (setVary (RT := Demo.runtime) ["x "] (demo_ctx "GET" "/hello")))
         = Some ",x,x")
  /\ (vary_of (setVary (RT := Demo.runtime) ["a"]
                (setHeader (RT := Demo.runtime) "Vary" "b,a,b ,a"
                   (demo_ctx "GET" "/hello")))
      = Some "b,a,b"
      /\ vary_of (setVary (RT := Demo.runtime) ["a"]
                   (setVary (RT := Demo.runtime) ["a"]
                      (setHeader (RT := Demo.runtime) "Vary" "b,a,b ,a"
                         (demo_ctx "GET" "/hello"))))
         = Some "b,a").
Proof. repeat split; vm_compute; reflexivity. Qed.

(** ** [halt] *)

Lemma halt_carries_payload_witness :
  exists h : ZarfHaltError,
    halt (RT := Demo.runtime) (A := unit) 401 (Some (JStr "You shall not pass"))
         (demo_ctx "GET" "/authorized")
    = Throw (ThrownHalt h)
    /\ halt_statusCode h = 401
    /\ halt_body h = JStr "You shall not pass".
Proof.
  destruct (halt_carries_payload (RT := Demo.runtime) (demo_ctx "GET" "/authorized")
              401 (JStr "You shall not pass") [] (CallNext pass_on) eq_refl)
    as (h & H1 & _ & H3 & H4 & _).
  exists h. split; [apply H1|]. split; [exact H3|exact H4].
Defined.

(** A falsy body is not carried: the status text takes its place. *)
Lemma halt_falsy_body_replaced :
  (exists h : ZarfHaltError,
      halt (RT := Demo.runtime) (A := unit) 200 (Some (JStr ""))
           (demo_ctx "GET" "/") = Throw (ThrownHalt h)
      /\ halt_body h = JStr "OK" /\ halt_body h <> JStr "")
  /\ (exists h : ZarfHaltError,
        halt (RT := Demo.runtime) (A := unit) 200 (Some (JNum 0))
             (demo_ctx "GET" "/") = Throw (ThrownHalt h)
        /\ halt_body h = JStr "OK" /\ halt_body h <> JNum 0).
Proof.
  split.
  - eexists. split; [reflexivity|]. split; [reflexivity|discriminate].
  - eexists. split; [reflexivity|]. split; [reflexivity|discriminate].
Qed.

(** ** The structural match and the Matcher *)

Lemma first_registered_match_wins_witness :
  match match_route demo_wildcard_first "get" "/a/b" with
  | Some (r, params) =>
      exists earlier later,
        demo_wildcard_first = earlier ++ r :: later
        /\ route_method r = "get"
        /\ Pattern.match_segments (route_segments r) (Pattern.segments_of "/a/b")
           = Some params
        /\ (forall r', r' ∈ earlier -> route_method r' = "get" ->
               Pattern.match_segments (route_segments r') (Pattern.segments_of "/a/b")
               = None)
  | None =>
      forall r', r' ∈ demo_wildcard_first -> route_method r' = "get" ->
        Pattern.match_segments (route_segments r') (Pattern.segments_of "/a/b") = None
  end.
Proof.
  exact (proj1 (first_registered_match_wins (RT := Demo.runtime) (Handler := string))
               demo_wildcard_first "get" "/a/b").
Defined.

Example wildcard_route_selected :
  (fun found => (route_handler (fst found), route_index (fst found), snd found))
    <$> match_route demo_wildcard_first "get" "/a/b"
  = Some ("wildcard", 0%nat, {[ "rest" := "b" ]}).
Proof. vm_compute. reflexivity. Qed.


Lemma optional_segment_matches_both_witness :
  Pattern.match_segments [Pattern.Static "user"; Pattern.OptionalParam "name"] ["user"]
  = Some ∅
  /\ (∅ : gmap string string) !! "name" = None
  /\ Pattern.match_segments [Pattern.Static "user"; Pattern.OptionalParam "name"]
                            ["user"; "a"]
     = Some (<["name" := "a"]> ∅).
Proof.
  apply (proj1 (proj2 (optional_segment_matches_both (RT := Demo.runtime) (Handler := string)))
               "/user/:name?" [Pattern.Static "user"] "name" ["user"] "a" ∅).
  - vm_compute. reflexivity.
  - intros x Hx. apply elem_of_cons in Hx as [Hx|Hx]; [discriminate Hx|].
    by apply elem_of_nil in Hx.
  - reflexivity.
Defined.

(** ** Dispatching *)

Example halted_request_runs_the_queue :
  let d := demo_dispatch ["auth"] "/api/list" in
  enqueued_in (chain_trace d) = ["access-log"]
  /\ dynamic_runs (after_trace d) = ["access-log"]
  /\ length (after_trace d) = 2%nat
  /\ (fun o => match o with
               | Resolved r => Some (resp_status r, resp_body r)
               | _ => None
               end) (outcome d) = Some (401, Some (JStr "Unauthorized")).
Proof. repeat split; vm_compute; reflexivity. Qed.

Example faulted_request_skips_the_queue :
  let d := demo_dispatch ["boom"] "/api/list" in
  enqueued_in (chain_trace d) = ["access-log"]
  /\ after_trace d = []
  /\ (fun o : Outcome (RT := Demo.runtime) =>
        match o with
               | ResolvedError e => Some (e : string)
               | _ => None
               end) (outcome d) = Some "boom".
Proof. repeat split; vm_compute; reflexivity. Qed.

Example completed_request_runs_the_queue :
  let d := demo_dispatch ["pass"] "/api/list" in
  enqueued_in (chain_trace d) = ["metrics"]
  /\ dynamic_runs (after_trace d) = ["metrics"]
  /\ length (chain_trace d) = 4%nat.
Proof. repeat split; vm_compute; reflexivity. Qed.


Example post_processing_enqueue_runs :
  let d := demo_dispatch ["timer"] "/api/list" in
  enqueued_in (chain_trace d) = ["metrics"; "timing-log"]
  /\ dynamic_runs (after_trace d) = ["metrics"; "timing-log"].
Proof. repeat split; vm_compute; reflexivity. Qed.

Example post_processing_halt_runs_the_queue :
  let d := demo_dispatch ["seal"] "/api/list" in
  enqueued_in (chain_trace d) = ["metrics"]
  /\ dynamic_runs (after_trace d) = ["metrics"]
  /\ (fun o => match o with
               | Resolved r => Some (resp_status r, resp_body r)
               | _ => None
               end) (outcome d) = Some (401, Some (JStr "Unauthorized")).
Proof. repeat split; vm_compute; reflexivity. Qed.

(** * Further properties of the context *)

Section ContextFacts.

Context `{RT : Runtime}.

(** The facts a context takes from its request and configuration. *)
Definition request_facts (ctx : AppContext)
  : Request * ZarfConfig * URL * string * string * string * ContextMeta
    * (string -> option string) * (string -> option string) :=
  (_request ctx, _config ctx, url ctx, host ctx, path ctx, method ctx, meta ctx,
   query ctx, headers ctx).

Definition is_redirect (op : ContextOp) : bool :=
  match op with
  | OpRedirect _ _ => true
  | _ => false
  end.

(** A series of calls without its assignments to [status]. *)
Fixpoint drop_status_assignments (ops : list ContextOp) : list ContextOp :=
  match ops with
  | [] => []
  | OpSetStatus _ :: ops' => drop_status_assignments ops'
  | op :: ops' => op :: drop_status_assignments ops'
  end.

(** The value a slot holds after a series of calls: that of its last
    assignment, or the one it held before. *)
Definition last_status (ops : list ContextOp) (before : option Z) : option Z :=
  fold_left (fun acc op => match op with OpSetStatus code => Some code | _ => acc end)
            ops before.

Definition last_error (ops : list ContextOp) (before : option ErrorValue)
  : option ErrorValue :=
  fold_left (fun acc op => match op with OpSetError e => e | _ => acc end) ops before.

Definition last_locals (ops : list ContextOp) (before : Locals) : Locals :=
  fold_left (fun acc op => match op with OpSetLocals l => l | _ => acc end) ops before.

Definition last_body (ops : list ContextOp) (before : option ParsedBody)
  : option ParsedBody :=
  fold_left (fun acc op => match op with OpSetBody b => b | _ => acc end) ops before.

(** Case analysis on an operation, with the two header helpers that branch. *)
Ltac by_op op ctx :=
  destruct op; simpl; try reflexivity;
  [ unfold setType; destruct (getContentType _); [|reflexivity];
    destruct (negb _); reflexivity
  | unfold setVary;
    match goal with |- context [match ?l with [] => _ | _ :: _ => _ end] =>
      destruct l; [reflexivity|] end;
    destruct (_response ctx); reflexivity ].

Lemma with_response_same (ctx : AppContext) :
  with_response (_response ctx) ctx = ctx.
Proof. by destruct ctx. Qed.

Lemma spread_empty_l (a : ResponseInit) : spread init_empty a = a.
Proof. destruct a as [[h|] [s|] [t|]]; reflexivity. Qed.

Lemma exec_op_facts (op : ContextOp) (ctx : AppContext) :
  request_facts (snd (exec_op op ctx)) = request_facts ctx.
Proof. unfold request_facts. by_op op ctx. Qed.

Lemma state_after_facts (ops : list ContextOp) (ctx : AppContext) :
  request_facts (state_after ops ctx) = request_facts ctx.
Proof.
  revert ctx. induction ops as [|op ops IH]; intros ctx; [reflexivity|].
  unfold state_after in *. simpl. rewrite IH. apply exec_op_facts.
Qed.

Lemma exec_op_isImmediate (op : ContextOp) (ctx : AppContext) :
  isImmediate (snd (exec_op op ctx)) = (isImmediate ctx || is_redirect op)%bool.
Proof.
  unfold isImmediate.
  destruct op; simpl; rewrite ?orb_false_r, ?orb_true_r; try reflexivity.
  - unfold setType. destruct (getContentType _); [|reflexivity].
    by destruct (negb _).
  - unfold setVary. destruct headerVals; [reflexivity|].
    by destruct (_response ctx).
Qed.

Lemma exec_op_with_code (op : ContextOp) (c : option Z) (ctx : AppContext) :
  (forall code, op <> OpSetStatus code) ->
  snd (exec_op op (with_code c ctx)) = with_code c (snd (exec_op op ctx)).
Proof.
  intros Hop. destruct op; simpl; try reflexivity.
  - by destruct (Hop code).
  - unfold setType. destruct (getContentType _); [|reflexivity].
    by destruct (negb _).
  - unfold setVary. destruct headerVals; [reflexivity|]. simpl.
    by destruct (_response ctx).
Qed.

Lemma exec_op_modulo_code (op : ContextOp) (c1 c2 : AppContext) :
  with_code None c1 = with_code None c2 ->
  with_code None (snd (exec_op op c1)) = with_code None (snd (exec_op op c2)).
Proof.
  intros H.
  destruct (match op with OpSetStatus _ => true | _ => false end) eqn:Hop.
  - destruct op; try discriminate Hop. exact H.
  - rewrite <- !exec_op_with_code by (intros code ->; discriminate Hop).
    by rewrite H.
Qed.

Lemma state_after_modulo_code (ops : list ContextOp) :
  forall c1 c2 : AppContext,
    with_code None c1 = with_code None c2 ->
    with_code None (state_after ops c1)
    = with_code None (state_after (drop_status_assignments ops) c2).
Proof.
  induction ops as [|op ops IH]; intros c1 c2 H; [exact H|].
  destruct (match op with OpSetStatus _ => true | _ => false end) eqn:Hop.
  - destruct op; try discriminate Hop. simpl. apply IH. exact H.
  - replace (drop_status_assignments (op :: ops))
      with (op :: drop_status_assignments ops)
      by (destruct op; try reflexivity; discriminate Hop).
    unfold state_after in *. simpl. apply IH. by apply exec_op_modulo_code.
Qed.

(** X1. Without a response in progress (after [ctx.response = null]) the
    header helpers do nothing, [getResponseInit] is empty, every response
    helper hands exactly its arguments on, and the init of a halt holds the
    status code alone. *)
Theorem helpers_without_response (ctx : AppContext) :
  _response ctx = None ->
  (forall k v, setHeader k v ctx = ctx)
  /\ (forall t, setType t ctx = ctx)
  /\ (forall vals, setVary vals ctx = ctx)
  /\ getResponseInit ctx = init_empty
  /\ (forall b args, json b args ctx = response_json b args)
  /\ (forall t args, text t args ctx = response_text t args)
  /\ (forall t args, html t args ctx = response_html t args)
  /\ (forall args, head args ctx = response_head args)
  /\ (forall statusCode b,
        halt_init (halt_payload statusCode b ctx)
        = {| init_headers := None; init_status := Some statusCode;
             init_statusText := None |}).
Proof.
  intros Hr.
  assert (Hset : forall k v, setHeader k v ctx = ctx).
  { intros k v. unfold setHeader. rewrite Hr. simpl. rewrite <- Hr.
    apply with_response_same. }
  assert (Hinit : getResponseInit ctx = init_empty)
    by (unfold getResponseInit; by rewrite Hr).
  split; [exact Hset|]. split.
  { intros t. unfold setType. destruct (getContentType t); [|reflexivity].
    destruct (negb _); [apply Hset|reflexivity]. }
  split.
  { intros vals. unfold setVary. rewrite Hr. by destruct vals. }
  split; [exact Hinit|].
  unfold json, text, html, head, halt_payload. rewrite Hinit.
  repeat split; intros; by rewrite ?spread_empty_l.
Qed.

(** X3. The value assigned to [ctx.status] reaches no response: a series of
    calls and the same series without its status assignments leave contexts
    on which [getResponseInit], every response helper, [halt] and [redirect]
    give the same result. *)
Theorem status_never_reaches_a_response (ops : list ContextOp) (ctx : AppContext) :
  let c1 := state_after ops ctx in
  let c2 := state_after (drop_status_assignments ops) ctx in
  getResponseInit c1 = getResponseInit c2
  /\ (forall b args, json b args c1 = json b args c2)
  /\ (forall t args, text t args c1 = text t args c2)
  /\ (forall t args, html t args c1 = html t args c2)
  /\ (forall args, head args c1 = head args c2)
  /\ (forall b args, send b args c1 = send b args c2)
  /\ (forall A statusCode b,
        halt (A := A) statusCode b c1 = halt (A := A) statusCode b c2)
  /\ (forall target statusCode,
        fst (redirect target statusCode c1) = fst (redirect target statusCode c2)).
Proof.
  intros c1 c2.
  pose proof (state_after_modulo_code ops ctx ctx eq_refl) as H. fold c1 c2 in H.
  assert (Hi : getResponseInit c1 = getResponseInit c2).
  { change (getResponseInit (with_code None c1) = getResponseInit (with_code None c2)).
    by rewrite H. }
  assert (Hq : _request c1 = _request c2).
  { change (_request (with_code None c1) = _request (with_code None c2)).
    by rewrite H. }
  split; [exact Hi|].
  repeat split; intros;
    unfold send, halt, redirect; unfold json, text, html, head, halt_payload;
    rewrite ?Hi, ?Hq; reflexivity.
Qed.

(** X4. [isImmediate] is false on a fresh context and, after any series of
    calls, true exactly when one of them was [redirect]: no call resets it. *)
Theorem isImmediate_marks_redirect (req : Request) (config : ZarfConfig) (now : Z)
    (ops : list ContextOp) :
  isImmediate (new_AppContext req config now) = false
  /\ isImmediate (state_after ops (new_AppContext req config now))
     = existsb is_redirect ops
  /\ (forall ctx, isImmediate ctx = true -> isImmediate (state_after ops ctx) = true).
Proof.
  assert (Hgen : forall l ctx,
             isImmediate (state_after l ctx)
             = (isImmediate ctx || existsb is_redirect l)%bool).
  { induction l as [|op l IH]; intros ctx.
    - simpl. by rewrite orb_false_r.
    - unfold state_after in *. simpl. rewrite IH, exec_op_isImmediate.
      by rewrite orb_assoc. }
  split; [reflexivity|]. split.
  - by rewrite Hgen.
  - intros ctx Hc. by rewrite Hgen, Hc.
Qed.

(** X5. No call on the context changes what it took from the request and the
    configuration: the request, configuration, URL, host, path, method, start
    time, query and header accessors stay as the constructor set them, and so
    do the answers of [isType] and [accepts] and the response of
    [redirect]. *)
Theorem request_facts_are_immutable (ops : list ContextOp) (ctx : AppContext) :
  let ctx' := state_after ops ctx in
  request_facts ctx' = request_facts ctx
  /\ (forall t, isType t ctx' = isType t ctx)
  /\ (forall t, accepts t ctx' = accepts t ctx)
  /\ (forall target statusCode,
        fst (redirect target statusCode ctx') = fst (redirect target statusCode ctx)).
Proof.
  intros ctx'. pose proof (state_after_facts ops ctx) as H. fold ctx' in H.
  split; [exact H|].
  assert (Hq : _request ctx' = _request ctx)
    by (unfold request_facts in H; congruence).
  unfold isType, accepts, redirect. rewrite Hq. repeat split.
Qed.

Lemma prefix_append (t s : string) :
  String.prefix t s = true <-> exists b, s = t +:+ b.
Proof.
  revert s. induction t as [|a t IH]; intros s.
  - split; [intros _; by exists s|intros _; by destruct s].
  - destruct s as [|c s]; simpl.
    + split; [done|]. intros [b Hb]. rewrite append_cons in Hb. discriminate Hb.
    + destruct (ascii_dec a c) as [->|Hne].
      * rewrite IH. split; intros [b Hb]; exists b.
        -- rewrite append_cons. by f_equal.
        -- rewrite append_cons in Hb. by injection Hb.
      * split; [done|]. intros [b Hb]. rewrite append_cons in Hb.
        injection Hb as Hac _. by destruct Hne.
Qed.

Lemma includes_unfold (s t : string) :
  JS.includes s t =
  if String.prefix t s then true
  else match s with
       | EmptyString => false
       | String _ s' => JS.includes s' t
       end.
Proof. by destruct s. Qed.

Lemma includes_occurrence (s t : string) :
  JS.includes s t = true <-> exists a b, s = a +:+ t +:+ b.
Proof.
  split.
  - induction s as [|c s IH]; rewrite includes_unfold.
    + destruct (String.prefix t "") eqn:Hp; [|done].
      intros _. apply prefix_append in Hp as [b Hb]. by exists "", b.
    + destruct (String.prefix t (String c s)) eqn:Hp.
      * intros _. apply prefix_append in Hp as [b Hb]. by exists "", b.
      * intros H. destruct (IH H) as (a & b & ->). by exists (String c a), b.
  - intros (a & b & ->). induction a as [|c a IH]; rewrite includes_unfold.
    + change ("" +:+ t +:+ b) with (t +:+ b).
      assert (Hp : String.prefix t (t +:+ b) = true) by (apply prefix_append; eauto).
      by rewrite Hp.
    + rewrite append_cons, IH. by destruct (String.prefix _ _).
Qed.

Lemma includes_empty (s : string) : JS.includes s "" = true.
Proof. apply includes_occurrence. exists "", s. reflexivity. Qed.

Lemma Headers_get_set_same (h : Headers) (k k' v : string) :
  JS.toLowerCase k' = JS.toLowerCase k ->
  Headers_get (Headers_set h k v) k' = Some (normalize_value v).
Proof. intros H. unfold Headers_get, Headers_set. rewrite H. apply lookup_insert_eq. Qed.

Lemma Headers_get_set_other (h : Headers) (k k' v : string) :
  JS.toLowerCase k' <> JS.toLowerCase k ->
  Headers_get (Headers_set h k v) k' = Headers_get h k'.
Proof. intros H. unfold Headers_get, Headers_set. by rewrite lookup_insert_ne. Qed.

Lemma Headers_set_over (h : Headers) (k k' v w : string) :
  JS.toLowerCase k' = JS.toLowerCase k ->
  Headers_set (Headers_set h k v) k' w = Headers_set h k' w.
Proof. intros H. unfold Headers_set. rewrite H. apply insert_insert_eq. Qed.

(** X9. [setHeader(k, v)] on a response in progress: the header reads back,
    under any letter case of its name, as [v] without surrounding whitespace;
    every other header, the status, the status text and the body stay; a
    later [setHeader] on the same name, in any letter case, replaces it. *)
Theorem setHeader_lookup (ctx : AppContext) (r : Response) (k v : string) :
  _response ctx = Some r ->
  exists r',
    _response (setHeader k v ctx) = Some r'
    /\ (forall k', JS.toLowerCase k' = JS.toLowerCase k ->
                   Headers_get (resp_headers r') k' = Some (normalize_value v))
    /\ (forall k', JS.toLowerCase k' <> JS.toLowerCase k ->
                   Headers_get (resp_headers r') k' = Headers_get (resp_headers r) k')
    /\ resp_status r' = resp_status r
    /\ resp_statusText r' = resp_statusText r
    /\ resp_body r' = resp_body r
    /\ (forall k' w, JS.toLowerCase k' = JS.toLowerCase k ->
                     setHeader k' w (setHeader k v ctx) = setHeader k' w ctx).
Proof.
  intros Hr. exists (response_set_header k v r). unfold setHeader. rewrite Hr.
  split; [reflexivity|]. split.
  { intros k' Hk. by apply Headers_get_set_same. }
  split.
  { intros k' Hk. by apply Headers_get_set_other. }
  repeat split. intros k' w Hk. simpl.
  unfold with_response, response_set_header. simpl.
  by rewrite Headers_set_over.
Qed.

(** X2. What a response helper hands on after [setHeader]: the status and
    status text of its arguments when they are given, else those of the
    response in progress; the headers of the response in progress, the new
    header among them, only when the arguments hold no headers.  Headers in
    the arguments replace them all, so that the helper gives what it would
    have given without the [setHeader]. *)
Theorem setHeader_reaches_helpers (ctx : AppContext) (r : Response) (k v : string)
    (args : ResponseInit) :
  _response ctx = Some r ->
  let init := spread (getResponseInit (setHeader k v ctx)) args in
  (forall b, json b args (setHeader k v ctx) = response_json b init)
  /\ init_status init = Some (default (resp_status r) (init_status args))
  /\ init_statusText init = Some (default (resp_statusText r) (init_statusText args))
  /\ (init_headers args = None ->
      exists h, init_headers init = Some h
                /\ Headers_get h k = Some (normalize_value v))
  /\ (forall h, init_headers args = Some h ->
        init_headers init = Some h
        /\ (forall b, json b args (setHeader k v ctx) = json b args ctx)
        /\ (forall t, text t args (setHeader k v ctx) = text t args ctx)
        /\ (forall t, html t args (setHeader k v ctx) = html t args ctx)
        /\ head args (setHeader k v ctx) = head args ctx
        /\ (forall b, req_method (_request ctx) <> "HEAD" ->
                      send b args (setHeader k v ctx) = send b args ctx)).
Proof.
  intros Hr init.
  assert (Hinit : init
                  = {| init_headers :=
                         Some (default (Headers_set (resp_headers r) k v)
                                       (init_headers args));
                       init_status := Some (default (resp_status r) (init_status args));
                       init_statusText :=
                         Some (default (resp_statusText r) (init_statusText args)) |}).
  { unfold init, getResponseInit, setHeader. rewrite Hr.
    destruct args as [[h|] [s|] [t|]]; reflexivity. }
  split; [reflexivity|]. rewrite Hinit. simpl.
  split; [reflexivity|]. split; [reflexivity|]. split.
  - intros ->. eexists. split; [reflexivity|]. apply Headers_get_set.
  - intros h Hh.
    assert (Hsame : spread (getResponseInit (setHeader k v ctx)) args
                    = spread (getResponseInit ctx) args).
    { unfold getResponseInit, setHeader. rewrite Hr.
      destruct args as [[h'|] [s|] [t|]]; try discriminate Hh; reflexivity. }
    rewrite Hh. split; [reflexivity|].
    split; [intros b; unfold json; by rewrite Hsame|].
    split; [intros t; unfold text; by rewrite Hsame|].
    split; [intros t; unfold html; by rewrite Hsame|].
    split; [unfold head; by rewrite Hsame|].
    intros b Hm. unfold send.
    change (_request (setHeader k v ctx)) with (_request ctx).
    destruct (String.eqb_spec (req_method (_request ctx)) "HEAD") as [Heq|_];
      [by destruct Hm|].
    by rewrite Hsame.
Qed.

(** X6. The [Server] header of a fresh context: a non-empty [serverHeader]
    option is stored, without surrounding whitespace, beside the headers the
    new response came with, and a halt on the fresh context carries it; when
    the option is missing or empty the response is the new response as it
    came. *)
Theorem server_header_on_fresh_context (req : Request) (config : ZarfConfig) (now : Z) :
  let ctx := new_AppContext req config now in
  (forall s, serverHeader config = Some s -> s <> "" ->
     exists r,
       _response ctx = Some r
       /\ Headers_get (resp_headers r) "Server" = Some (normalize_value s)
       /\ (forall k, JS.toLowerCase k <> "server" ->
             Headers_get (resp_headers r) k = Headers_get (resp_headers Response_new) k)
       /\ resp_status r = resp_status Response_new
       /\ resp_body r = resp_body Response_new
       /\ (forall statusCode b,
             init_headers (halt_init (halt_payload statusCode b ctx))
             = Some (resp_headers r)))
  /\ (serverHeader config = None \/ serverHeader config = Some "" ->
      _response ctx = Some Response_new).
Proof.
  intros ctx. split.
  - intros s Hs Hne. unfold ctx, new_AppContext. cbv zeta. cbn [_response].
    rewrite Hs. simpl. destruct (String.eqb_spec s "") as [|_]; [done|]. simpl.
    eexists. split; [reflexivity|]. simpl.
    split; [apply Headers_get_set|].
    split; [intros k Hk; by apply Headers_get_set_other|].
    repeat split.
  - intros [H|H]; unfold ctx, new_AppContext; cbv zeta; cbn [_response];
      by rewrite H.
Qed.

(** X7. [accepts] reads the request header named [Accepts]: without it the
    answer is undefined; with it, a type that [getContentType] does not know
    (or maps to the empty string) is always accepted, and a known content
    type is accepted exactly when it occurs in the header. *)
Theorem accepts_reads_the_Accepts_header (ctx : AppContext) (t : string) :
  (Headers_get (req_headers (_request ctx)) "Accepts" = None -> accepts t ctx = None)
  /\ (forall v, Headers_get (req_headers (_request ctx)) "Accepts" = Some v ->
        (getContentType t = None \/ getContentType t = Some "" ->
         accepts t ctx = Some true)
        /\ (forall c, getContentType t = Some c ->
              (accepts t ctx = Some true <-> exists a b, v = a +:+ c +:+ b))).
Proof.
  unfold accepts. split; [by intros ->|].
  intros v ->. split.
  - intros [->| ->]; by rewrite includes_empty.
  - intros c ->. rewrite <- includes_occurrence.
    split; [by intros [= ->]|by intros ->].
Qed.

(** X8. [setType]: a type that [getContentType] does not know (or maps to the
    empty string) leaves the context as it is; a known one is
    [setHeader('Content-Type', ...)], it reads back from the response without
    surrounding whitespace, and setting the same type twice is setting it
    once. *)
Theorem setType_sets_content_type (ctx : AppContext) (t : string) :
  (getContentType t = None \/ getContentType t = Some "" -> setType t ctx = ctx)
  /\ (forall c, getContentType t = Some c -> c <> "" ->
        setType t ctx = setHeader "Content-Type" c ctx
        /\ setType t (setType t ctx) = setType t ctx
        /\ (forall r, _response ctx = Some r ->
              exists r',
                _response (setType t ctx) = Some r'
                /\ Headers_get (resp_headers r') "content-type"
                   = Some (normalize_value c)
                /\ resp_status r' = resp_status r)).
Proof.
  unfold setType. split.
  - by intros [->| ->].
  - intros c -> Hc. destruct (String.eqb_spec c "") as [|_]; [done|]. simpl.
    split; [reflexivity|]. split.
    + unfold setHeader. destruct (_response ctx) as [r|]; simpl; [|reflexivity].
      unfold with_response, response_set_header. simpl.
      by rewrite Headers_set_set.
    + intros r Hr. unfold setHeader. rewrite Hr. eexists.
      split; [reflexivity|]. split; [|reflexivity].
      by apply Headers_get_set_same.
Qed.

Lemma exec_op_slots (op : ContextOp) (ctx : AppContext) :
  status (snd (exec_op op ctx))
  = match op with OpSetStatus code => Some code | _ => status ctx end
  /\ error (snd (exec_op op ctx))
     = match op with OpSetError e => e | _ => error ctx end
  /\ locals (snd (exec_op op ctx))
     = match op with OpSetLocals l => l | _ => locals ctx end
  /\ body (snd (exec_op op ctx))
     = match op with OpSetBody b => b | _ => body ctx end.
Proof.
  unfold status, error, locals.
  destruct op; simpl; try (repeat split; reflexivity).
  - unfold setType. destruct (getContentType _); [|by repeat split].
    destruct (negb _); by repeat split.
  - unfold setVary. destruct headerVals; [by repeat split|].
    destruct (_response ctx); by repeat split.
Qed.

(** X14. The slots [status], [error], [locals] and [body] each hold, after any
    series of calls, the value of their last assignment, and the value they
    held before when the series assigns none: no other call writes them. *)
Theorem slots_hold_last_assignment (ops : list ContextOp) (ctx : AppContext) :
  status (state_after ops ctx) = last_status ops (status ctx)
  /\ error (state_after ops ctx) = last_error ops (error ctx)
  /\ locals (state_after ops ctx) = last_locals ops (locals ctx)
  /\ body (state_after ops ctx) = last_body ops (body ctx).
Proof.
  revert ctx. induction ops as [|op ops IH]; intros ctx; [by repeat split|].
  unfold state_after, last_status, last_error, last_locals, last_body in *.
  simpl. destruct (IH (snd (exec_op op ctx))) as (H1 & H2 & H3 & H4).
  destruct (exec_op_slots op ctx) as (E1 & E2 & E3 & E4).
  rewrite H1, H2, H3, H4, E1, E2, E3, E4. by repeat split.
Qed.

(** X15. [redirect]: it marks the context immediate and leaves the response in
    progress and the queue as they are; the location is the given URL, or for
    ['back'] the [Referrer] header of the request, or [/] when that header is
    missing or empty; the status is 302 when none is given. *)
Theorem redirect_location (ctx : AppContext) (target : string) (statusCode : option Z) :
  let r := fst (redirect target statusCode ctx) in
  let ctx' := snd (redirect target statusCode ctx) in
  isImmediate ctx' = true
  /\ _response ctx' = _response ctx
  /\ afterMiddlewares ctx' = afterMiddlewares ctx
  /\ (target <> "back" ->
      r = Response_redirect (encodeURI target) (default 302 statusCode))
  /\ (target = "back" ->
      (forall v, Headers_get (req_headers (_request ctx)) "Referrer" = Some v ->
                 v <> "" ->
                 r = Response_redirect (encodeURI v) (default 302 statusCode))
      /\ (Headers_get (req_headers (_request ctx)) "Referrer" = None
          \/ Headers_get (req_headers (_request ctx)) "Referrer" = Some "" ->
          r = Response_redirect (encodeURI "/") (default 302 statusCode))).
Proof.
  intros r ctx'. unfold r, ctx', redirect. cbv zeta. cbn [fst snd].
  split; [reflexivity|]. split; [reflexivity|]. split; [reflexivity|]. split.
  - intros Hne. destruct (String.eqb_spec target "back") as [|_]; [done|reflexivity].
  - intros ->. simpl. split.
    + intros v -> Hv. by destruct (String.eqb_spec v "") as [|_].
    + by intros [->| ->].
Qed.

Lemma Set_of_app_left (l extra : list string) :
  JS.Set_of (JS.Set_of l ++ extra) = JS.Set_of (l ++ extra).
Proof.
  unfold JS.Set_of at 1 3. rewrite !fold_left_app.
  by rewrite (Set_fold_fresh (JS.Set_of l) []) by apply Set_of_NoDup.
Qed.

Lemma Set_fold_added (l : list string) :
  forall acc : list string,
    exists added,
      fold_left JS.Set_add l acc = acc ++ added
      /\ (forall x, x ∈ added <-> x ∈ l /\ x ∉ acc).
Proof.
  induction l as [|y l IH]; intros acc.
  - exists []. rewrite app_nil_r. split; [done|].
    intros x. split; [by intros ?%elem_of_nil|by intros [?%elem_of_nil _]].
  - simpl. unfold JS.Set_add at 2. destruct (decide (y ∈ acc)) as [Hin|Hout].
    + destruct (IH acc) as (added & -> & Hadded). exists added. split; [done|].
      intros x. rewrite Hadded, elem_of_cons. split; [tauto|].
      intros [[->|Hx] Hacc]; [done|tauto].
    + destruct (IH (acc ++ [y])) as (added & -> & Hadded). exists (y :: added).
      split; [by rewrite <- app_assoc|].
      intros x. rewrite !elem_of_cons, Hadded, elem_of_app, list_elem_of_singleton.
      destruct (decide (x = y)) as [->|Hne]; [tauto|]. tauto.
Qed.

Lemma Set_fold_head (l acc : list string) (a : string) :
  a ∉ l -> fold_left JS.Set_add l (a :: acc) = a :: fold_left JS.Set_add l acc.
Proof.
  revert acc. induction l as [|y l IH]; intros acc Ha; [done|].
  apply not_elem_of_cons in Ha as [Hay Ha]. simpl.
  replace (JS.Set_add (a :: acc) y) with (a :: JS.Set_add acc y); [by apply IH|].
  unfold JS.Set_add. destruct (decide (y ∈ acc)) as [Hin|Hout].
  - rewrite decide_True; [done|]. by right.
  - rewrite decide_False; [done|]. intros [->|Hin]%elem_of_cons; done.
Qed.

(** X10. Two calls of [setVary] in a row are one call with the values of both,
    for values that hold no comma and no surrounding whitespace, on a response
    whose [Vary] entries hold no surrounding whitespace. *)
Theorem setVary_composes (a b : list string) (ctx : AppContext) :
  Forall (fun v => JS.free_of "," v = true /\ normalize_value v = v) a ->
  Forall (fun v => JS.free_of "," v = true /\ normalize_value v = v) b ->
  (forall r, _response ctx = Some r ->
     Forall (fun e => normalize_value e = e)
            (JS.split "," (default "" (Headers_get (resp_headers r) "Vary")))) ->
  setVary b (setVary a ctx) = setVary (a ++ b) ctx.
Proof.
  intros Ha Hb Hcur.
  destruct a as [|x xs]; [reflexivity|].
  destruct b as [|y ys]; [by rewrite app_nil_r|].
  destruct (_response ctx) as [r|] eqn:Hr.
  - specialize (Hcur r eq_refl).
    assert (Hfree : Forall (fun v => JS.free_of "," v = true) (x :: xs))
      by (eapply Forall_impl; [exact Ha|]; by intros v [? _]).
    assert (Hnorm : Forall (fun v => normalize_value v = v) (x :: xs))
      by (eapply Forall_impl; [exact Ha|]; by intros v [_ ?]).
    pose proof (vary_value_normal _ _ Hcur Hnorm) as Hn.
    rewrite (setVary_unfold x xs r ctx Hr).
    erewrite setVary_unfold by reflexivity.
    change ((x :: xs) ++ y :: ys) with (x :: (xs ++ y :: ys)).
    rewrite (setVary_unfold x (xs ++ y :: ys) r ctx Hr).
    unfold with_response, response_set_header. simpl.
    rewrite Headers_get_set, Headers_set_set, Hn.
    rewrite (vary_value_default (Some _)). simpl.
    rewrite vary_value_split by done.
    rewrite Set_of_app_left, <- app_assoc.
    by rewrite (vary_value_default _ (x :: xs ++ y :: ys)).
  - unfold setVary. simpl. rewrite Hr. simpl. by rewrite Hr.
Qed.

(** X11. [setVary] keeps what the header held: the distinct current entries
    stay first, in their order, and the values that were not among them
    follow; the other headers of the response are left alone.  (For values
    that hold no comma and no surrounding whitespace, on a response whose
    [Vary] entries hold no surrounding whitespace.) *)
Theorem setVary_keeps_entries (headerVals : list string) (ctx : AppContext)
    (r : Response) :
  Forall (fun v => JS.free_of "," v = true /\ normalize_value v = v) headerVals ->
  headerVals <> [] ->
  _response ctx = Some r ->
  let entries := JS.split "," (default "" (Headers_get (resp_headers r) "Vary")) in
  Forall (fun e => normalize_value e = e) entries ->
  exists r' v added,
    _response (setVary headerVals ctx) = Some r'
    /\ Headers_get (resp_headers r') "Vary" = Some v
    /\ JS.split "," v = JS.Set_of entries ++ added
    /\ (forall x, x ∈ added <-> x ∈ headerVals /\ x ∉ entries)
    /\ (NoDup entries -> JS.Set_of entries = entries)
    /\ (forall k, JS.toLowerCase k <> "vary" ->
          Headers_get (resp_headers r') k = Headers_get (resp_headers r) k).
Proof.
  intros Hvals Hne Hr entries Hcur.
  assert (Hfree : Forall (fun v => JS.free_of "," v = true) headerVals)
    by (eapply Forall_impl; [exact Hvals|]; by intros v [? _]).
  assert (Hnorm : Forall (fun v => normalize_value v = v) headerVals)
    by (eapply Forall_impl; [exact Hvals|]; by intros v [_ ?]).
  pose proof (vary_value_normal _ _ Hcur Hnorm) as Hn.
  destruct headerVals as [|x xs]; [done|].
  rewrite (setVary_unfold x xs r ctx Hr).
  destruct (Set_fold_added (x :: xs) (JS.Set_of entries)) as (added & Hfold & Hadded).
  eexists _, _, added. split; [reflexivity|]. simpl.
  split; [apply Headers_get_set|]. rewrite Hn. split.
  { rewrite vary_value_split by done. fold entries.
    unfold JS.Set_of at 1. rewrite fold_left_app. exact Hfold. }
  split.
  { intros y. rewrite Hadded. unfold JS.Set_of. rewrite Set_fold_elem.
    rewrite elem_of_nil. tauto. }
  split.
  { intros Hnd. by apply (Set_fold_fresh entries []). }
  intros k Hk. by apply Headers_get_set_other.
Qed.

(** X12. The first [setVary] on a response that has no [Vary] header (or an
    empty one) stores a value that begins with a comma, the empty entry that
    splitting the missing header gives, followed by the distinct values in
    call order. *)
Theorem setVary_on_missing_header (headerVals : list string) (ctx : AppContext)
    (r : Response) :
  _response ctx = Some r ->
  Headers_get (resp_headers r) "Vary" = None
  \/ Headers_get (resp_headers r) "Vary" = Some "" ->
  headerVals <> [] ->
  "" ∉ headerVals ->
  Forall (fun v => normalize_value v = v) headerVals ->
  exists r',
    _response (setVary headerVals ctx) = Some r'
    /\ Headers_get (resp_headers r') "Vary"
       = Some ("," +:+ JS.join "," (JS.Set_of headerVals)).
Proof.
  intros Hr Hcur Hne Hempty Hnorm.
  destruct headerVals as [|x xs]; [done|].
  rewrite (setVary_unfold x xs r ctx Hr). eexists. split; [reflexivity|]. simpl.
  rewrite Headers_get_set. f_equal.
  assert (Hentries : JS.split "," (default "" (Headers_get (resp_headers r) "Vary"))
                     = [""])
    by (destruct Hcur as [-> | ->]; reflexivity).
  rewrite vary_value_normal; [|rewrite Hentries; by repeat constructor|done].
  rewrite vary_value_default, Hentries.
  change ([""] ++ x :: xs) with ("" :: x :: xs).
  unfold JS.Set_of at 1.
  change (fold_left JS.Set_add ("" :: x :: xs) [])
    with (fold_left JS.Set_add (x :: xs) [""]).
  rewrite (Set_fold_head (x :: xs) [] "" Hempty).
  fold (JS.Set_of (x :: xs)).
  pose proof (Set_of_not_nil (x :: xs) Hne) as Hd.
  by destruct (JS.Set_of (x :: xs)).
Qed.

(** X13. [halt] without a body, or with a falsy one (the empty string, zero,
    [false], [null]), carries the status text of the table as its body; the
    status code and the init are those of any halt, and the context is left
    as it is. *)
Theorem halt_default_body (ctx : AppContext) (statusCode : Z) (b : option JSONValue) :
  b = None \/ (exists v, b = Some v /\ truthy v = false) ->
  exists h,
    exec_op (OpHalt statusCode b) ctx = (Throw (ThrownHalt h), ctx)
    /\ halt_body h = JStr (HTTP_STATUS_CODES statusCode)
    /\ halt_statusCode h = statusCode
    /\ init_status (halt_init h) = Some statusCode
    /\ init_headers (halt_init h) = resp_headers <$> _response ctx.
Proof.
  intros Hb. exists (halt_payload statusCode b ctx).
  split; [reflexivity|]. split.
  - apply halt_body_fallback. destruct Hb as [->|(v & -> & Hv)]; done.
  - split; [reflexivity|]. split; [reflexivity|].
    unfold halt_payload, getResponseInit. simpl.
    destruct (_response ctx); reflexivity.
Qed.

End ContextFacts.

(** ** The further properties at work *)

Definition demo_no_response : AppContext (RT := Demo.runtime) :=
  set_response (RT := Demo.runtime) None (demo_ctx "GET" "/hello").

Definition demo_accepting : AppContext (RT := Demo.runtime) :=
  new_AppContext (RT := Demo.runtime)
    (mkRequest "GET" "http://localhost:3000/hello"
               {[ "accepts" := "text/html,application/json" ]})
    demo_config 0.

Definition demo_server_config : ZarfConfig := mkConfig None (Some " zarf ").

Lemma helpers_without_response_witness :
  setHeader (RT := Demo.runtime) "X-Trace" "1" demo_no_response = demo_no_response
  /\ getResponseInit (RT := Demo.runtime) demo_no_response = init_empty.
Proof.
  destruct (helpers_without_response (RT := Demo.runtime) demo_no_response eq_refl)
    as (H1 & _ & _ & H4 & _).
  split; [apply H1|exact H4].
Defined.

(** The route [/text] of the example application answers with
    [ctx.text("lorem ipsum", { status: 404, statusText: "created" })]. *)
Lemma setHeader_reaches_helpers_witness :
  let args := mkResponseInit None (Some 404) (Some "created") in
  let init := spread (getResponseInit (RT := Demo.runtime)
                        (setHeader (RT := Demo.runtime) "X-Trace" "1"
                                   (demo_ctx "GET" "/text"))) args in
  init_status init = Some 404
  /\ init_statusText init = Some "created"
  /\ exists h, init_headers init = Some h /\ Headers_get h "X-Trace" = Some "1".
Proof.
  destruct (setHeader_reaches_helpers (RT := Demo.runtime) (demo_ctx "GET" "/text")
              Response_new "X-Trace" "1"
              (mkResponseInit None (Some 404) (Some "created")) eq_refl)
    as (_ & H2 & H3 & H4 & _).
  split; [exact H2|]. split; [exact H3|]. exact (H4 eq_refl).
Defined.

Example status_assignment_is_not_sent :
  resp_status (text (RT := Demo.runtime) "lorem ipsum" init_empty
                    (set_status (RT := Demo.runtime) 404 (demo_ctx "GET" "/text")))
  = 200.
Proof. reflexivity. Qed.

Lemma server_header_on_fresh_context_witness :
  exists r,
    _response (new_AppContext (RT := Demo.runtime) (demo_request "GET" "/hello")
                              demo_server_config 0) = Some r
    /\ Headers_get (resp_headers r) "Server" = Some "zarf".
Proof.
  destruct (proj1 (server_header_on_fresh_context (RT := Demo.runtime)
                     (demo_request "GET" "/hello") demo_server_config 0)
                  " zarf " eq_refl) as (r & H1 & H2 & _).
  - discriminate.
  - exists r. split; [exact H1|exact H2].
Defined.

Lemma accepts_reads_the_Accepts_header_witness :
  accepts (RT := Demo.runtime) "json" demo_accepting = Some true
  /\ accepts (RT := Demo.runtime) "json" (demo_ctx "GET" "/hello") = None.
Proof.
  destruct (accepts_reads_the_Accepts_header (RT := Demo.runtime) demo_accepting "json")
    as [_ H].
  destruct (H "text/html,application/json" eq_refl) as [_ Hknown].
  split.
  - apply (Hknown "application/json" eq_refl). by exists "text/html,", "".
  - apply (proj1 (accepts_reads_the_Accepts_header (RT := Demo.runtime)
                    (demo_ctx "GET" "/hello") "json")).
    reflexivity.
Defined.

Lemma setType_sets_content_type_witness :
  setType (RT := Demo.runtime) "json"
          (setType (RT := Demo.runtime) "json" (demo_ctx "GET" "/hello"))
  = setType (RT := Demo.runtime) "json" (demo_ctx "GET" "/hello")
  /\ setType (RT := Demo.runtime) "yaml" (demo_ctx "GET" "/hello")
     = demo_ctx "GET" "/hello".
Proof.
  destruct (setType_sets_content_type (RT := Demo.runtime) (demo_ctx "GET" "/hello") "json")
    as [_ H].
  destruct (H "application/json" eq_refl) as (_ & H2 & _); [discriminate|].
  split; [exact H2|].
  apply (proj1 (setType_sets_content_type (RT := Demo.runtime)
                  (demo_ctx "GET" "/hello") "yaml")).
  left. reflexivity.
Defined.

Lemma setHeader_lookup_witness :
  exists r',
    _response (setHeader (RT := Demo.runtime) "Content-Type" " text/html "
                         (demo_ctx "GET" "/hello")) = Some r'
    /\ Headers_get (resp_headers r') "content-type" = Some "text/html".
Proof.
  destruct (setHeader_lookup (RT := Demo.runtime) (demo_ctx "GET" "/hello")
              Response_new "Content-Type" " text/html " eq_refl)
    as (r' & H1 & H2 & _).
  exists r'. split; [exact H1|]. apply (H2 "content-type" eq_refl).
Defined.

Lemma setVary_composes_witness :
  setVary (RT := Demo.runtime) ["Origin"; "Accept"]
          (setVary (RT := Demo.runtime) ["Accept"] (demo_ctx "GET" "/hello"))
  = setVary (RT := Demo.runtime) (["Accept"] ++ ["Origin"; "Accept"])
            (demo_ctx "GET" "/hello").
Proof.
  apply (setVary_composes (RT := Demo.runtime)).
  - repeat constructor.
  - repeat constructor.
  - intros r Hr. injection Hr as <-. vm_compute. repeat constructor.
Defined.

Lemma setVary_keeps_entries_witness :
  exists r' v added,
    _response (setVary (RT := Demo.runtime) ["Accept"; "Origin"]
                 (setHeader (RT := Demo.runtime) "Vary" "Origin"
                            (demo_ctx "GET" "/hello"))) = Some r'
    /\ Headers_get (resp_headers r') "Vary" = Some v
    /\ JS.split "," v = ["Origin"] ++ added
    /\ (forall x, x ∈ added <-> x ∈ ["Accept"; "Origin"] /\ x ∉ ["Origin"]).
Proof.
  destruct (setVary_keeps_entries (RT := Demo.runtime) ["Accept"; "Origin"]
              (setHeader (RT := Demo.runtime) "Vary" "Origin" (demo_ctx "GET" "/hello"))
              (response_set_header "Vary" "Origin" (Response_new (Runtime := Demo.runtime))))
    as (r' & v & added & H1 & H2 & H3 & H4 & _).
  - repeat constructor.
  - discriminate.
  - reflexivity.
  - vm_compute. repeat constructor.
  - exists r', v, added. split; [exact H1|]. split; [exact H2|].
    split; [exact H3|exact H4].
Defined.

Lemma setVary_on_missing_header_witness :
  exists r',
    _response (setVary (RT := Demo.runtime) ["Accept"; "Origin"]
                       (demo_ctx "GET" "/hello")) = Some r'
    /\ Headers_get (resp_headers r') "Vary" = Some ",Accept,Origin".
Proof.
  apply (setVary_on_missing_header (RT := Demo.runtime) ["Accept"; "Origin"]
           (demo_ctx "GET" "/hello") (Response_new (Runtime := Demo.runtime))).
  - reflexivity.
  - left. reflexivity.
  - discriminate.
  - intros H. apply elem_of_cons in H as [H|H]; [discriminate H|].
    apply elem_of_cons in H as [H|H]; [discriminate H|].
    by apply elem_of_nil in H.
  - repeat constructor.
Defined.

Lemma halt_default_body_witness :
  exists h,
    exec_op (RT := Demo.runtime) (OpHalt 404 None) (demo_ctx "GET" "/missing")
    = (Throw (ThrownHalt h), demo_ctx "GET" "/missing")
    /\ halt_body h = JStr "Not Found".
Proof.
  destruct (halt_default_body (RT := Demo.runtime) (demo_ctx "GET" "/missing") 404 None)
    as (h & H1 & H2 & _).
  - left. reflexivity.
  - exists h. split; [exact H1|exact H2].
Defined.

Lemma redirect_location_witness :
  fst (redirect (RT := Demo.runtime) "back" None (demo_ctx "GET" "/hello"))
  = Response_redirect (Runtime := Demo.runtime) "/" 302
  /\ fst (redirect (RT := Demo.runtime) "/login" (Some 301) (demo_ctx "GET" "/hello"))
     = Response_redirect (Runtime := Demo.runtime) "/login" 301.
Proof.
  pose proof (redirect_location (RT := Demo.runtime) (demo_ctx "GET" "/hello")
                "back" None) as H1.
  pose proof (redirect_location (RT := Demo.runtime) (demo_ctx "GET" "/hello")
                "/login" (Some 301)) as H2.
  cbv zeta in H1, H2.
  destruct H1 as (_ & _ & _ & _ & H1). destruct H2 as (_ & _ & _ & H2 & _).
  split.
  - apply (proj2 (H1 eq_refl)). left. reflexivity.
  - apply H2. discriminate.
Defined.

Example slots_and_flags_example :
  let ctx := state_after (RT := Demo.runtime)
               [OpSetStatus 201; OpSetHeader "X-Trace" "1"; OpSetStatus 404;
                OpRedirect "/login" None; OpSetVary ["Accept"]]
               (demo_ctx "GET" "/hello") in
  status ctx = Some 404 /\ isImmediate ctx = true /\ path ctx = "/hello".
Proof. repeat split; vm_compute; reflexivity. Qed.
